(** * Session lifecycle of the Braien front end (src/frontend/src/App.jsx)

    The [App] component keeps the active browser sessions in two places, the
    React state [sessions] (an array, rendered as cards) and the ref
    [sessionsRef] (a JS [Set] of ids, read by the page-exit handler), and
    talks to the backend through three async functions:
    [cleanupSession], [handleBeforeUnload] and [launchBrowser], which the
    specification calls close, closeAll and launch.

    The async functions are embedded as terms of a small free monad
    ([Async]): synchronous effects on the component's store, [fetch],
    [await] on one promise, [await Promise.all] and [await response.json()].
    An event loop ([step]) runs each call up to its next [await] and resumes
    it when the environment settles the promise it waits for. *)

From stdpp Require Import base tactics option list gmap strings numbers pretty.

(** ** JavaScript values *)

(** Values that payload fields and session ids take.  Payload fields are JSON
    scalars (the backend sends strings and a port number, an integer);
    [VUndefined] is what reading a missing property gives.  A field that is
    itself an array or an object is outside the model: what is proved of a
    response is proved of the bodies whose fields are scalars.  On these values
    [!==] and the SameValueZero comparison of [Set] are both plain
    inequality: they differ only on NaN, which JSON cannot carry. *)
Inductive JsVal :=
  | VUndefined
  | VNull
  | VBool (b : bool)
  | VNum (n : Z)
  | VStr (s : string).

#[global] Instance JsVal_eq_dec : EqDecision JsVal.
Proof. solve_decision. Defined.

(** ToBoolean: the falsy values are undefined, null, false, 0 and "". *)
Definition truthy (v : JsVal) : bool :=
  match v with
  | VUndefined | VNull => false
  | VBool b => b
  | VNum n => negb (n =? 0)%Z
  | VStr s => negb (String.eqb s "")
  end.

(** [a || b] *)
Definition js_or (a b : JsVal) : JsVal := if truthy a then a else b.

(** ToString, as used by template literals and by [new Error(v)]; integers
    print in decimal (JavaScript does so below 10^21). *)
Definition js_to_string (v : JsVal) : string :=
  match v with
  | VUndefined => "undefined"
  | VNull => "null"
  | VBool true => "true"
  | VBool false => "false"
  | VNum n => pretty n
  | VStr s => s
  end.

Record JsError := mkError { message : string }.

#[global] Instance JsError_eq_dec : EqDecision JsError.
Proof. solve_decision. Defined.

(** [new Error(v)]: the message is ToString(v), empty when [v] is undefined. *)
Definition new_Error (v : JsVal) : JsError :=
  mkError (match v with VUndefined => "" | _ => js_to_string v end).

(** A settled promise. *)
Inductive Settled (A : Type) :=
  | Fulfilled (a : A)
  | Rejected (err : JsError).
Arguments Fulfilled {A} a.
Arguments Rejected {A} err.

(** The outcome of an expression that may throw. *)
Inductive Completion (A : Type) :=
  | Normal (a : A)
  | Throw (err : JsError).
Arguments Normal {A} a.
Arguments Throw {A} err.

(** What [response.json()] resolves to: a JSON object, an array (its
    elements are never read), or a scalar. *)
Inductive Json :=
  | JObject (fields : gmap string JsVal)
  | JArray
  | JScalar (v : JsVal).

(** ** The component's store *)

(** [newSession] of [launchBrowser] (lines 340-347). *)
Record Session := mkSession {
  id : JsVal;
  browser : string;
  url : JsVal;
  status : JsVal;
  port : JsVal;
  createdAt : Z;
}.

#[global] Instance Session_eq_dec : EqDecision Session.
Proof. solve_decision. Defined.

(** The [useState]/[useRef] cells of [App] (lines 276-280) and the console.
    A JS [Set] iterates in insertion order, so [sessionsRef] is the list of
    its elements in that order.  A state setter is applied to the store when
    it is called: React runs the queued updaters in call order before the
    next render, and only rendering reads [sessions]. *)
Record Store := mkStore {
  sessions : list Session;
  loading : bool;
  error : string;
  launchingBrowser : option string;
  sessionsRef : list JsVal;
  console : list (string * JsError);
}.

Definition setSessions (f : list Session → list Session) (st : Store) : Store :=
  mkStore (f (sessions st)) (loading st) (error st) (launchingBrowser st)
          (sessionsRef st) (console st).

Definition setLoading (b : bool) (st : Store) : Store :=
  mkStore (sessions st) b (error st) (launchingBrowser st)
          (sessionsRef st) (console st).

Definition setError (msg : string) (st : Store) : Store :=
  mkStore (sessions st) (loading st) msg (launchingBrowser st)
          (sessionsRef st) (console st).

Definition setLaunchingBrowser (b : option string) (st : Store) : Store :=
  mkStore (sessions st) (loading st) (error st) b
          (sessionsRef st) (console st).

(** [Set.prototype.add] and [Set.prototype.delete]. *)
Definition Set_add (x : JsVal) (s : list JsVal) : list JsVal :=
  if decide (x ∈ s) then s else s ++ [x].

Definition Set_delete (x : JsVal) (s : list JsVal) : list JsVal :=
  filter (λ y, y ≠ x) s.

Definition sessionsRef_add (x : JsVal) (st : Store) : Store :=
  mkStore (sessions st) (loading st) (error st) (launchingBrowser st)
          (Set_add x (sessionsRef st)) (console st).

Definition sessionsRef_delete (x : JsVal) (st : Store) : Store :=
  mkStore (sessions st) (loading st) (error st) (launchingBrowser st)
          (Set_delete x (sessionsRef st)) (console st).

Definition console_error (label : string) (err : JsError) (st : Store) : Store :=
  mkStore (sessions st) (loading st) (error st) (launchingBrowser st)
          (sessionsRef st) (console st ++ [(label, err)]).

(** Lines 288-289 of [cleanupSession]: the session leaves both representations. *)
Definition registry_remove (sessionId : JsVal) (st : Store) : Store :=
  sessionsRef_delete sessionId
    (setSessions (λ prev, filter (λ s, id s ≠ sessionId) prev) st).

(** Lines 349-350 of [launchBrowser]: the session enters both representations. *)
Definition registry_insert (newSession : Session) (session_id : JsVal)
    (st : Store) : Store :=
  sessionsRef_add session_id
    (setSessions (λ prev, prev ++ [newSession]) st).

(** The registry: the ordered collection and the membership set. *)
Definition registry (st : Store) : list Session * list JsVal :=
  (sessions st, sessionsRef st).

Definition session_ids (st : Store) : list JsVal := id <$> sessions st.

(** ** Network *)

(** The two requests the component sends.  [Cleanup path] is
    [DELETE ${API_BASE}/cleanup/${sessionId}], where [path] is the id as the
    template literal prints it; [Launch b] is [POST ${API_BASE}/launch-browser]
    with body [{browser: b}]. *)
Inductive Request :=
  | Cleanup (path : string)
  | Launch (browserType : string).

#[global] Instance Request_eq_dec : EqDecision Request.
Proof. solve_decision. Defined.

(** A response: [ok] is [response.ok], [json] is what the promise returned by
    [response.json()] settles to. *)
Record Response := mkResponse {
  ok : bool;
  json : Settled Json;
}.

(** ** Async functions *)

Inductive Async :=
  | Return
  | Act (f : Store → Store) (k : Async)
  | Get (k : Store → Async)
  | Now (k : Z → Async)
  | Fetch (req : Request) (k : nat → Async)
  | Await (p : nat) (k : Settled Response → Async)
  | AwaitAll (ps : list nat) (k : Settled () → Async)
  | AwaitJson (response : Response) (k : Settled Json → Async).

Declare Scope async_scope.
Delimit Scope async_scope with async.
Bind Scope async_scope with Async.
Notation "f ;; k" := (Act f k%async)
  (at level 100, k at level 200, right associativity) : async_scope.
Notation "'let!' x ':=' 'fetch' req 'in' k" := (Fetch req (λ x, k%async))
  (at level 10, x name, req at level 9, k at level 200) : async_scope.
Open Scope async_scope.

(** [cleanupPromises = ids.map(sessionId => fetch(...))] *)
Fixpoint map_fetch (ids : list JsVal) (k : list nat → Async) : Async :=
  match ids with
  | [] => k []
  | sessionId :: ids =>
      let! p := fetch (Cleanup (js_to_string sessionId)) in
      map_fetch ids (λ ps, k (p :: ps))
  end.

(** *** [cleanupSession] (lines 283-293) *)

Definition cleanupSession_settled (sessionId : JsVal)
    (r : Settled Response) : Async :=
  match r with
  | Fulfilled _ =>
      setSessions (λ prev, filter (λ s, id s ≠ sessionId) prev) ;;
      sessionsRef_delete sessionId ;;
      Return
  | Rejected err =>
      console_error "Cleanup error:" err ;;
      Return
  end.

Definition cleanupSession (sessionId : JsVal) : Async :=
  let! p := fetch (Cleanup (js_to_string sessionId)) in
  Await p (cleanupSession_settled sessionId).

(** *** [handleBeforeUnload] (lines 297-307) *)

Definition handleBeforeUnload_settled (r : Settled ()) : Async :=
  match r with
  | Fulfilled _ => Return
  | Rejected err =>
      console_error "Error during cleanup:" err ;;
      Return
  end.

Definition handleBeforeUnload : Async :=
  Get (λ st,
    map_fetch (sessionsRef st) (λ cleanupPromises,
      AwaitAll cleanupPromises handleBeforeUnload_settled)).

(** ** The event loop *)

(** A promise returned by [fetch]. *)
Inductive PromiseState :=
  | Pending (req : Request)
  | Done (r : Settled Response).

(** What a suspended call waits for, with the code that resumes it. *)
Inductive Waiting :=
  | OnFetch (p : nat) (k : Settled Response → Async)
  | OnAll (ps : list nat) (k : Settled () → Async)
  | OnJson (response : Response) (k : Settled Json → Async).

(** [promises]: every promise [fetch] has returned, a handle is an index.
    [tasks]: the suspended calls, each with the number of its call.
    [calls]: how many async calls were made.  [resolved]: the calls whose
    own promise has resolved (the async function has returned). *)
Record World := mkWorld {
  store : Store;
  clock : Z;
  promises : list PromiseState;
  tasks : list (nat * Waiting);
  calls : nat;
  resolved : list nat;
}.

Definition with_store (f : Store → Store) (w : World) : World :=
  mkWorld (f (store w)) (clock w) (promises w) (tasks w) (calls w) (resolved w).

Definition with_tasks (ts : list (nat * Waiting)) (w : World) : World :=
  mkWorld (store w) (clock w) (promises w) ts (calls w) (resolved w).

Definition park (t : nat * Waiting) (w : World) : World :=
  with_tasks (tasks w ++ [t]) w.

Definition new_promise (req : Request) (w : World) : World :=
  mkWorld (store w) (clock w) (promises w ++ [Pending req]) (tasks w)
          (calls w) (resolved w).

Definition resolve (c : nat) (w : World) : World :=
  mkWorld (store w) (clock w) (promises w) (tasks w) (calls w)
          (resolved w ++ [c]).

Definition is_pending (w : World) (p : nat) : bool :=
  match promises w !! p with
  | Some (Done _) => false
  | _ => true
  end.

(** The error of the first promise of [ps], in the order of the array, that
    has rejected. *)
Fixpoint first_rejection (w : World) (ps : list nat) : option JsError :=
  match ps with
  | [] => None
  | p :: ps =>
      match promises w !! p with
      | Some (Done (Rejected err)) => Some err
      | _ => first_rejection w ps
      end
  end.

(** [exec c a w] runs call number [c] from [a] until it returns or reaches an
    [await] on something that has not settled.  An [await] on a settled
    promise continues in a microtask, before any other event is handled.
    [Promise.all] rejects with the first rejection and fulfils once every
    input has. *)
Fixpoint exec (c : nat) (a : Async) (w : World) : World :=
  match a with
  | Return => resolve c w
  | Act f k => exec c k (with_store f w)
  | Get k => exec c (k (store w)) w
  | Now k => exec c (k (clock w)) w
  | Fetch req k => exec c (k (length (promises w))) (new_promise req w)
  | Await p k =>
      match promises w !! p with
      | Some (Done r) => exec c (k r) w
      | _ => park (c, OnFetch p k) w
      end
  | AwaitAll ps k =>
      match first_rejection w ps with
      | Some err => exec c (k (Rejected err)) w
      | None =>
          match filter (λ p, is_pending w p = true) ps with
          | [] => exec c (k (Fulfilled ())) w
          | qs => park (c, OnAll qs k) w
          end
      end
  | AwaitJson response k => park (c, OnJson response k) w
  end.

(** A new call of an async function. *)
Definition call (a : Async) (w : World) : World :=
  exec (calls w) a
    (mkWorld (store w) (clock w) (promises w) (tasks w) (S (calls w))
             (resolved w)).

(** Promise [p] has settled with [r]: a task that waits for it resumes, any
    other stays parked. *)
Definition notify (p : nat) (r : Settled Response) (w : World)
    (t : nat * Waiting) : World :=
  match t with
  | (c, OnFetch q k) =>
      if decide (q = p) then exec c (k r) w else park t w
  | (c, OnAll qs k) =>
      if decide (p ∈ qs) then
        match r with
        | Rejected err => exec c (k (Rejected err)) w
        | Fulfilled _ =>
            match filter (λ q, q ≠ p) qs with
            | [] => exec c (k (Fulfilled ())) w
            | qs' => park (c, OnAll qs' k) w
            end
        end
      else park t w
  | (c, OnJson _ _) => park t w
  end.

Definition settle (p : nat) (r : Settled Response) (w : World) : World :=
  match promises w !! p with
  | Some (Pending _) =>
      foldl (notify p r)
        (mkWorld (store w) (clock w) (<[p := Done r]> (promises w)) []
                 (calls w) (resolved w))
        (tasks w)
  | _ => w
  end.

(** The body of the response that the [i]-th task reads has arrived: the
    call resumes.  What React does once the handlers have run (the render,
    and the unmount when it throws) is [screen_step] below. *)
Definition body_read (i : nat) (w : World) : World :=
  match tasks w !! i with
  | Some (c, OnJson response k) =>
      exec c (k (json response)) (with_tasks (delete i (tasks w)) w)
  | _ => w
  end.

(** What can happen to the page: the user clicks a launch button, closes a
    session card or dismisses the error; the page is left ([beforeunload],
    [unload] and the effect's own cleanup all run [handleBeforeUnload]); time
    passes; the network settles a [fetch] promise or delivers a body. *)
Inductive Event :=
  | ClickLaunch (browserType : string)
  | ClickClose (sessionId : JsVal)
  | PageExit
  | Dismiss
  | Tick (now : Z)
  | Settle (p : nat) (r : Settled Response)
  | BodyRead (i : nat).

(** [App] as first rendered (lines 276-280). *)
Definition init : World :=
  mkWorld (mkStore [] false "" None [] []) 0 [] [] 0 [].

(** The [TypeError] the JavaScript engine throws when property [p] is read
    from [null] or [undefined]; its text differs between engines. *)
Class Engine := engine_TypeError : string → JsError.

Section Programs.
Context {engine : Engine}.

(** [data.p] for the property names the component reads, none of which is
    defined on a string, number, boolean or array. *)
Definition get_prop (data : Json) (p : string) : Completion JsVal :=
  match data with
  | JObject fields => Normal (default VUndefined (fields !! p))
  | JArray => Normal VUndefined
  | JScalar VUndefined | JScalar VNull => Throw (engine_TypeError p)
  | JScalar _ => Normal VUndefined
  end.

(** *** [launchBrowser] (lines 319-359) *)

Definition launchBrowser_finally : Async :=
  setLoading false ;;
  setLaunchingBrowser None ;;
  Return.

Definition launchBrowser_catch (err : JsError) : Async :=
  console_error "Error launching browser:" err ;;
  setError (message err) ;;
  launchBrowser_finally.

Definition try_ {A} (c : Completion A) (k : A → Async) : Async :=
  match c with
  | Normal a => k a
  | Throw err => launchBrowser_catch err
  end.

(** Lines 334-335, resumed when [response.json()] settles. *)
Definition launchBrowser_errorData (r : Settled Json) : Async :=
  match r with
  | Rejected err => launchBrowser_catch err
  | Fulfilled errorData =>
      try_ (get_prop errorData "detail") (λ detail,
        launchBrowser_catch
          (new_Error (js_or detail (VStr "Failed to launch browser"))))
  end.

(** Lines 338-350, resumed when [response.json()] settles. *)
Definition launchBrowser_data (browserType : string) (r : Settled Json) : Async :=
  match r with
  | Rejected err => launchBrowser_catch err
  | Fulfilled data =>
      try_ (get_prop data "session_id") (λ session_id,
      try_ (get_prop data "vnc_url") (λ vnc_url,
      try_ (get_prop data "status") (λ status,
      try_ (get_prop data "port") (λ port,
      Now (λ now,
        let newSession :=
          mkSession session_id browserType vnc_url status port now in
        setSessions (λ prev, prev ++ [newSession]) ;;
        try_ (get_prop data "session_id") (λ session_id',
        sessionsRef_add session_id' ;;
        launchBrowser_finally))))))
  end.

(** Lines 333-338, resumed when the [fetch] promise settles. *)
Definition launchBrowser_response (browserType : string)
    (r : Settled Response) : Async :=
  match r with
  | Rejected err => launchBrowser_catch err
  | Fulfilled response =>
      if negb (ok response)
      then AwaitJson response launchBrowser_errorData
      else AwaitJson response (launchBrowser_data browserType)
  end.

Definition launchBrowser (browserType : string) : Async :=
  setLoading true ;;
  setLaunchingBrowser (Some browserType) ;;
  setError "" ;;
  let! p := fetch (Launch browserType) in
  Await p (launchBrowser_response browserType).

Definition step (ev : Event) (w : World) : World :=
  match ev with
  | ClickLaunch browserType => call (launchBrowser browserType) w
  | ClickClose sessionId => call (cleanupSession sessionId) w
  | PageExit => call handleBeforeUnload w
  | Dismiss => with_store (setError "") w
  | Tick now =>
      mkWorld (store w) now (promises w) (tasks w) (calls w) (resolved w)
  | Settle p r => settle p r w
  | BodyRead i => body_read i w
  end.

Definition run (evs : list Event) (w : World) : World :=
  foldl (λ w ev, step ev w) w evs.

(** ** Invariants of the reachable worlds *)

(** The two representations agree on which ids are present. *)
Definition consistent (st : Store) : Prop :=
  ∀ x, x ∈ session_ids st ↔ x ∈ sessionsRef st.

(** The suspended calls that can exist: each waits at one of the five
    [await]s of the component, for promises that [fetch] has returned. *)
Inductive known_task (n : nat) : Waiting → Prop :=
  | known_cleanup p sessionId :
      p < n → known_task n (OnFetch p (cleanupSession_settled sessionId))
  | known_launch p browserType :
      p < n → known_task n (OnFetch p (launchBrowser_response browserType))
  | known_errorData response :
      known_task n (OnJson response launchBrowser_errorData)
  | known_data response browserType :
      known_task n (OnJson response (launchBrowser_data browserType))
  | known_unload qs :
      qs ≠ [] → Forall (λ q, q < n) qs →
      known_task n (OnAll qs handleBeforeUnload_settled).

(** What holds of every world that [run] reaches from [init]. *)
Record Inv (w : World) : Prop := mkInv {
  inv_consistent : consistent (store w);
  inv_nodup : NoDup (sessionsRef (store w));
  inv_tasks :
    Forall (λ t, t.1 < calls w ∧ known_task (length (promises w)) t.2) (tasks w);
  inv_resolved : Forall (λ c, c < calls w) (resolved w);
}.

(** Task [t] resumes when promise [p] settles. *)
Definition waits_on (p : nat) (t : nat * Waiting) : Prop :=
  match t.2 with
  | OnFetch q _ => q = p
  | OnAll qs _ => p ∈ qs
  | OnJson _ _ => False
  end.

(** How promise [p] has settled, if it has. *)
Definition is_fulfilled (w : World) (p : nat) : bool :=
  match promises w !! p with
  | Some (Done (Fulfilled _)) => true
  | _ => false
  end.

Definition is_rejected (w : World) (p : nat) : bool :=
  match promises w !! p with
  | Some (Done (Rejected _)) => true
  | _ => false
  end.

(** ** Vocabulary of the proofs *)

(** The promises of the delete requests for [ids], as [fetch] returns them. *)
Definition cleanup_requests (ids : list JsVal) : list PromiseState :=
  (λ sessionId, Pending (Cleanup (js_to_string sessionId))) <$> ids.

(** The store after the [catch] and [finally] blocks of [launchBrowser]. *)
Definition launch_failed (err : JsError) (st : Store) : Store :=
  setLaunchingBrowser None (setLoading false
    (setError (message err)
      (console_error "Error launching browser:" err st))).

(** The store after lines 349-350 and the [finally] block. *)
Definition launch_succeeded (newSession : Session) (st : Store) : Store :=
  setLaunchingBrowser None (setLoading false
    (registry_insert newSession (id newSession) st)).

(** The error thrown at lines 334-335. *)
Definition errorData_error (r : Settled Json) : JsError :=
  match r with
  | Rejected err => err
  | Fulfilled errorData =>
      match get_prop errorData "detail" with
      | Throw err => err
      | Normal detail =>
          new_Error (js_or detail (VStr "Failed to launch browser"))
      end
  end.

(** The session built at lines 338-347 at time [now], or the error thrown
    there. *)
Definition data_session (browserType : string) (now : Z) (r : Settled Json)
    : Completion Session :=
  match r with
  | Rejected err => Throw err
  | Fulfilled (JScalar VUndefined) | Fulfilled (JScalar VNull) =>
      Throw (engine_TypeError "session_id")
  | Fulfilled data =>
      let field p :=
        match data with
        | JObject fields => default VUndefined (fields !! p)
        | _ => VUndefined
        end in
      Normal (mkSession (field "session_id") browserType (field "vnc_url")
                (field "status") (field "port") now)
  end.

(** The part of [Inv] that is about the store. *)
Definition store_ok (st : Store) : Prop :=
  consistent st ∧ NoDup (sessionsRef st).

(** [f] changes neither representation. *)
Definition keeps_registry (f : Store → Store) : Prop :=
  ∀ st, registry (f st) = registry st.

(** The tasks that the settlement of a request sent by [handleBeforeUnload]
    after [n] promises can meet: older ones, and its own. *)
Definition old_or_unload (n : nat) (t : nat * Waiting) : Prop :=
  known_task n t.2 ∨ ∃ qs, t.2 = OnAll qs handleBeforeUnload_settled.

(** The tasks of call [c]. *)
Definition tasks_of (c : nat) (ts : list (nat * Waiting)) : list (nat * Waiting) :=
  filter (λ t, t.1 = c) ts.

(** [w'] comes from [w] by running call [c]: promises are only added, calls
    that have resolved stay resolved, and of another call neither the tasks
    nor the resolution change. *)
Definition frame (c : nat) (w w' : World) : Prop :=
  promises w `prefix_of` promises w' ∧
  calls w' = calls w ∧
  (∀ x, x ∈ resolved w → x ∈ resolved w') ∧
  ∀ c', c' ≠ c →
    tasks_of c' (tasks w') = tasks_of c' (tasks w) ∧
    (c' ∈ resolved w' → c' ∈ resolved w).

(** The part of a world that matters to call [c] and to the promises below
    the length of [promises w]. *)
Definition keeps (c : nat) (w w' : World) : Prop :=
  promises w `prefix_of` promises w' ∧
  calls w' = calls w ∧
  tasks_of c (tasks w') = tasks_of c (tasks w) ∧
  (c ∈ resolved w' ↔ c ∈ resolved w).

(** Call [c] of [handleBeforeUnload], waiting for the promises [qs]. *)
Definition unload_task (c : nat) (qs : list nat) : nat * Waiting :=
  (c, OnAll qs handleBeforeUnload_settled).

(** Call [c] of [handleBeforeUnload] sent the requests with handles [H]:
    either it has returned, and then every request was answered or one was
    rejected; or none was rejected, some are in flight, and the call waits
    for exactly those. *)
Definition unload_inv (c : nat) (H : list nat) (w : World) : Prop :=
  c < calls w ∧
  Forall (λ p, p < length (promises w)) H ∧
  ((c ∈ resolved w ∧
    (Forall (λ p, is_fulfilled w p = true) H ∨
     Exists (λ p, is_rejected w p = true) H)) ∨
   ((c ∉ resolved w) ∧
    Forall (λ p, is_rejected w p = false) H ∧
    filter (λ p, is_pending w p = true) H ≠ [] ∧
    tasks_of c (tasks w) =
      [unload_task c (filter (λ p, is_pending w p = true) H)])).

(** Every step only adds promises, calls and resolutions, and a settled
    promise stays as it settled. *)
Definition grows (w w' : World) : Prop :=
  calls w ≤ calls w' ∧
  length (promises w) ≤ length (promises w') ∧
  (∀ x, x ∈ resolved w → x ∈ resolved w') ∧
  (∀ p r, promises w !! p = Some (Done r) → promises w' !! p = Some (Done r)).

End Programs.

(** ** What the page shows *)


(** [{loading && <LoadingIndicator browserName={launchingBrowser} />}]
    (lines 444-446): the name the indicator is rendered with, [None] when it
    is not rendered; [Some None] is the indicator rendered with [null]. *)
Definition shows_LoadingIndicator (st : Store) : option (option string) :=
  if loading st then Some (launchingBrowser st) else None.

(** [loading] and [launchingBrowser] agree, and the kind shown is in [K]. *)
Definition indicator_ok (K : string → Prop) (st : Store) : Prop :=
  match launchingBrowser st with
  | Some browserType => loading st = true ∧ K browserType
  | None => loading st = false
  end.

(** ** Changes of the registry *)

(** The two ways the registry changes: lines 288-289 take every session with
    one id out of both representations, lines 349-350 put one session into
    both. *)
Inductive registry_change :
    list Session * list JsVal → list Session * list JsVal → Prop :=
  | change_remove sessionId l s :
      registry_change (l, s)
        (filter (λ x, id x ≠ sessionId) l, Set_delete sessionId s)
  | change_insert newSession l s :
      registry_change (l, s) (l ++ [newSession], Set_add (id newSession) s).

(** Promise [p] has been returned by [fetch] and has not settled. *)
Definition in_flight (w : World) (p : nat) : Prop :=
  ∃ req, promises w !! p = Some (Pending req).

(** Task [t] waits for a body, or for promises all of which are in flight. *)
Definition waits_for_pending (w : World) (t : nat * Waiting) : Prop :=
  match t.2 with
  | OnFetch p _ => in_flight w p
  | OnAll qs _ => qs ≠ [] ∧ Forall (in_flight w) qs
  | OnJson _ _ => True
  end.

(** The tasks parked so far wait for pending promises, and [n] calls have
    returned or are parked. *)
Definition live (n : nat) (w : World) : Prop :=
  Forall (waits_for_pending w) (tasks w) ∧
  length (resolved w) + length (tasks w) = n.

#[global] Instance waits_on_dec p t : Decision (waits_on p t).
Proof.
  destruct t as [c [q k|qs k|response k]]; unfold waits_on; simpl; apply _.
Defined.

(** Of the suspended calls, call [c] alone waits for promise [p], at
    [await fetch(...)] with the continuation [k]. *)
Definition awaited_by (p c : nat) (k : Settled Response → Async) (w : World)
    : Prop :=
  filter (waits_on p) (tasks w) = [(c, OnFetch p k)].

(** Neither representation of [st'] holds anything that [st] does not. *)
Definition registry_shrinks (st st' : Store) : Prop :=
  (∀ s, s ∈ sessions st' → s ∈ sessions st) ∧
  (∀ x, x ∈ sessionsRef st' → x ∈ sessionsRef st).

(** The distinct elements of a list, in the order of their first occurrence. *)
Fixpoint first_occurrences (l : list JsVal) : list JsVal :=
  match l with
  | [] => []
  | x :: l => x :: filter (λ y, y ≠ x) (first_occurrences l)
  end.

(** ** The session card: [getBrowserConfig] (lines 117-145) *)

(** [toLowerCase], [toUpperCase], [charAt(0)] and [slice(1)] of a string.
    The strings of the component (button names, browser kinds, property
    names) are ASCII text, on which the case functions change the letters
    A-Z and a-z only. *)
Definition lower_ascii (c : Ascii.ascii) : Ascii.ascii :=
  let n := Ascii.nat_of_ascii c in
  if (65 <=? n) && (n <=? 90) then Ascii.ascii_of_nat (n + 32) else c.

Definition upper_ascii (c : Ascii.ascii) : Ascii.ascii :=
  let n := Ascii.nat_of_ascii c in
  if (97 <=? n) && (n <=? 122) then Ascii.ascii_of_nat (n - 32) else c.

Fixpoint toLowerCase (s : string) : string :=
  match s with
  | EmptyString => EmptyString
  | String c s => String (lower_ascii c) (toLowerCase s)
  end.

Fixpoint toUpperCase (s : string) : string :=
  match s with
  | EmptyString => EmptyString
  | String c s => String (upper_ascii c) (toUpperCase s)
  end.

Definition charAt0 (s : string) : string :=
  match s with
  | EmptyString => EmptyString
  | String c _ => String c EmptyString
  end.

Definition slice1 (s : string) : string :=
  match s with
  | EmptyString => EmptyString
  | String _ s => s
  end.

(** The icons of lucide-react that the cards and buttons use. *)
Inductive Icon := Globe | Eye | Shield.

Module Config.
Record t := mk {
  icon : Icon;
  name : string;
  gradient : string;
  color : string;
}.
End Config.

(** The own properties of the object literal [configs] (lines 118-137). *)
Definition configs : gmap string Config.t :=
  list_to_map
    [("firefox", Config.mk Globe "Firefox" "from-orange-500 to-red-500" "orange");
     ("tor", Config.mk Eye "Tor Browser" "from-purple-600 to-indigo-600" "purple");
     ("tor-browser",
      Config.mk Eye "Tor Browser" "from-purple-600 to-indigo-600" "purple")].

(** The properties an object literal inherits from [Object.prototype]; all
    of them are functions or objects, hence truthy. *)
Definition Object_prototype_keys : list string :=
  ["constructor"; "__defineGetter__"; "__defineSetter__"; "hasOwnProperty";
   "__lookupGetter__"; "__lookupSetter__"; "isPrototypeOf";
   "propertyIsEnumerable"; "toString"; "valueOf"; "__proto__";
   "toLocaleString"].

(** What [configs[key] || {...}] evaluates to: one of the three configs, a
    member of [Object.prototype], or the fallback object. *)
Inductive ConfigValue :=
  | Own (c : Config.t)
  | Inherited (key : string)
  | Fallback (c : Config.t).

Definition getBrowserConfig (browser : string) : ConfigValue :=
  let key := toLowerCase browser in
  match configs !! key with
  | Some c => Own c
  | None =>
      if decide (key ∈ Object_prototype_keys) then Inherited key
      else
        Fallback
          (Config.mk Globe (toUpperCase (charAt0 browser) +:+ slice1 browser)
             "from-blue-500 to-purple-500" "blue")
  end.

(** The id label of a card (line 195): [session.id.substring(0, 8)] and
    three dots.  [None] when the expression throws, which it does unless the
    id is a string: [undefined] and [null] have no properties, a number or a
    boolean has no [substring]. *)
Definition BrowserSession_id_label (session : Session) : option string :=
  match id session with
  | VStr s => Some (String.substring 0 8 s +:+ "...")
  | _ => None
  end.

(** Whether the render of a card completes (lines 151-152, 171, 189-195):
    the icon of the config must be a component, which no member of
    [Object.prototype] carries under [icon], and the id label must not
    throw.  [{session.status}] and [{session.port}] are rendered as
    children, which every scalar can be: they add no condition on the
    sessions of the model, whose fields are scalars. *)
Definition BrowserSession_renders (session : Session) : bool :=
  match getBrowserConfig (browser session), BrowserSession_id_label session with
  | (Own _ | Fallback _), Some _ => true
  | _, _ => false
  end.

(** [sessions.map(session => <BrowserSession ... />)] (lines 462-468): the
    render of [App] completes when the render of every card does. *)
Definition App_renders (st : Store) : bool :=
  forallb BrowserSession_renders (sessions st).



(** ** The launch buttons (lines 36-54, 361-385, 435-441) *)

Module BrowserOption.
Record props := mk {
  name : string;
  icon : Icon;
  available : bool;
  description : string;
  gradient : string;
  onClick : option Async;
}.
End BrowserOption.

(** Line 54: [onClick={available && !isLaunching ? onClick : undefined}]. *)
Definition BrowserOption_onClick (browser : BrowserOption.props)
    (isLaunching : bool) : option Async :=
  if BrowserOption.available browser && negb isLaunching
  then BrowserOption.onClick browser
  else None.

(** Line 439: [isLaunching={launchingBrowser === browser.name.toLowerCase()}]. *)
Definition isLaunching (st : Store) (browser : BrowserOption.props) : bool :=
  bool_decide
    (launchingBrowser st = Some (toLowerCase (BrowserOption.name browser))).

(** ** The page-exit effect (lines 296-317) *)

(** The page: the component and the event types for which the window has
    [handleBeforeUnload] registered.  [addEventListener] ignores a listener
    that is already registered for the type. *)
Record Page := mkPage {
  world : World;
  listeners : list string;
}.

Definition addEventListener (type : string) (pg : Page) : Page :=
  mkPage (world pg)
    (if decide (type ∈ listeners pg) then listeners pg
     else listeners pg ++ [type]).

Definition removeEventListener (type : string) (pg : Page) : Page :=
  mkPage (world pg) (filter (λ t, t ≠ type) (listeners pg)).

(** The body of the effect (lines 309-310), run when [App] mounts. *)
Definition effect_mount (pg : Page) : Page :=
  addEventListener "unload" (addEventListener "beforeunload" pg).

(** The function the effect returns (lines 312-316), run when [App]
    unmounts. *)
Definition effect_cleanup (pg : Page) : Page :=
  let pg := removeEventListener "unload"
              (removeEventListener "beforeunload" pg) in
  mkPage (call handleBeforeUnload (world pg)) (listeners pg).

(** The window fires an event of the given type. *)
Definition dispatchEvent (type : string) (pg : Page) : Page :=
  if decide (type ∈ listeners pg)
  then mkPage (call handleBeforeUnload (world pg)) (listeners pg)
  else pg.

(** The page under React.  React renders [App] after the handlers of an
    event have run; the component has no error boundary, so a render that
    throws takes [App] off the page, which runs the cleanup of its effect.
    [mounted] tells whether [App] is still on the page. *)
Record Screen := mkScreen {
  page : Page;
  mounted : bool;
}.

Definition render (pg : Page) : Screen :=
  if App_renders (store (world pg)) then mkScreen pg true
  else mkScreen (effect_cleanup pg) false.

Section Buttons.
Context {engine : Engine}.

(** Lines 361-385. *)
Definition browserOptions : list BrowserOption.props :=
  [BrowserOption.mk "Firefox" Globe true
     "Secure, privacy-focused browsing with advanced container isolation"
     "from-orange-600 to-red-600" (Some (launchBrowser "firefox"));
   BrowserOption.mk "Tor" Eye true
     "Anonymous browsing through the Tor network with maximum privacy"
     "from-purple-600 to-indigo-600" (Some (launchBrowser "tor"));
   BrowserOption.mk "Brave" Shield false
     "Privacy-first browser with built-in ad blocking"
     "from-emerald-600 to-teal-600" None].

(** A click on the [i]-th launch button, as last rendered. *)
Definition click_option (i : nat) (w : World) : World :=
  match browserOptions !! i with
  | Some browser =>
      match BrowserOption_onClick browser (isLaunching (store w) browser) with
      | Some handler => call handler w
      | None => w
      end
  | None => w
  end.

(** A click on the close button of the [i]-th session card (line 175):
    [onClose(session.id)] with [onClose] = [cleanupSession] (line 466). *)
Definition click_close (i : nat) (w : World) : World :=
  match sessions (store w) !! i with
  | Some session => call (cleanupSession (id session)) w
  | None => w
  end.

(** What the user and the network can do to the rendered page. *)
Inductive PageEvent :=
  | PressOption (i : nat)
  | PressClose (i : nat)
  | PressDismiss
  | WindowEvent (type : string)
  | Network (ev : Event).

(** The network part of [Event]: time, settlements, bodies. *)
Definition is_network (ev : Event) : bool :=
  match ev with
  | Tick _ | Settle _ _ | BodyRead _ => true
  | _ => false
  end.

(** The handlers that an event runs; the render that follows is in
    [screen_step]. *)
Definition page_step (u : PageEvent) (pg : Page) : Page :=
  match u with
  | PressOption i => mkPage (click_option i (world pg)) (listeners pg)
  | PressClose i => mkPage (click_close i (world pg)) (listeners pg)
  | PressDismiss => mkPage (step Dismiss (world pg)) (listeners pg)
  | WindowEvent type => dispatchEvent type pg
  | Network ev =>
      if is_network ev then mkPage (step ev (world pg)) (listeners pg) else pg
  end.

Definition page_run (us : list PageEvent) (pg : Page) : Page :=
  foldl (λ pg u, page_step u pg) pg us.

(** The page once [App] is mounted. *)
Definition page_init : Page := effect_mount (mkPage init []).

(** [App] renders after every state change, and a render that throws takes
    the component off the page.  [stays_mounted us pg]: the render completes
    on [pg] and after each of the events [us]. *)
Fixpoint stays_mounted (us : list PageEvent) (pg : Page) : bool :=
  App_renders (store (world pg)) &&
  match us with
  | [] => true
  | u :: us => stays_mounted us (page_step u pg)
  end.

(** An event on the page under React.  Once [App] is unmounted there are
    no buttons left and the window has no listener of the component; the
    calls in flight still resume when the network answers.  (React drops
    the updates of the state cells of an unmounted component; the model
    keeps applying them to cells that are no longer rendered.  The ref, the
    console and the requests are as on the page.) *)
Definition screen_step (u : PageEvent) (s : Screen) : Screen :=
  if mounted s then render (page_step u (page s))
  else
    match u with
    | Network _ => mkScreen (page_step u (page s)) false
    | _ => s
    end.

Definition screen_run (us : list PageEvent) (s : Screen) : Screen :=
  foldl (λ s u, screen_step u s) s us.

(** The first render of [App], of the empty list of sessions. *)
Definition screen_init : Screen := render page_init.




(** The suspended calls whose launches, if any, are of a kind in [K]. *)
Inductive task_kinds (K : string → Prop) : Waiting → Prop :=
  | kinds_cleanup p sessionId :
      task_kinds K (OnFetch p (cleanupSession_settled sessionId))
  | kinds_launch p browserType :
      K browserType →
      task_kinds K (OnFetch p (launchBrowser_response browserType))
  | kinds_errorData response :
      task_kinds K (OnJson response launchBrowser_errorData)
  | kinds_data response browserType :
      K browserType →
      task_kinds K (OnJson response (launchBrowser_data browserType))
  | kinds_unload qs :
      task_kinds K (OnAll qs handleBeforeUnload_settled).

(** Every session and every pending launch is of a kind in [K]. *)
Definition kinds_inv (K : string → Prop) (w : World) : Prop :=
  Forall (λ s, K (browser s)) (sessions (store w)) ∧
  Forall (λ t, task_kinds K t.2) (tasks w).

End Buttons.

(** ** Concrete runs *)

(** The wording of V8 (Chrome, Node) for a property read from [null]. *)
Definition v8 : Engine :=
  λ p, mkError ("Cannot read properties of null (reading '" +:+ p +:+ "')").

(** A success response whose body is the JSON object with the given fields. *)
Definition ok_json (fields : list (string * JsVal)) : Settled Response :=
  Fulfilled (mkResponse true (Fulfilled (JObject (list_to_map fields)))).

(** A response with a non-success status and the given JSON object as body. *)
Definition error_json (fields : list (string * JsVal)) : Settled Response :=
  Fulfilled (mkResponse false (Fulfilled (JObject (list_to_map fields)))).

Definition abc123 : list (string * JsVal) :=
  [("session_id", VStr "abc123"); ("vnc_url", VStr "http://host/vnc/abc123");
   ("status", VStr "running"); ("port", VNum 5901)].

(** The page after [launch("firefox")] was answered with session abc123. *)
Definition one_session : World :=
  run (engine := v8)
    [ClickLaunch "firefox"; Settle 0 (ok_json abc123); BodyRead 0] init.

(** The user then closes that session; the request is promise 1. *)
Definition closing : World :=
  step (engine := v8) (ClickClose (VStr "abc123")) one_session.

(** The page after two launches, answered with sessions a and b. *)
Definition two_sessions : World :=
  run (engine := v8)
    [ClickLaunch "firefox";
     Settle 0 (ok_json [("session_id", VStr "a");
                        ("vnc_url", VStr "http://host/vnc/a")]);
     BodyRead 0;
     ClickLaunch "tor";
     Settle 1 (ok_json [("session_id", VStr "b");
                        ("vnc_url", VStr "http://host/vnc/b")]);
     BodyRead 0] init.

(** The session that [one_session] shows. *)
Definition abc123_session : Session :=
  mkSession (VStr "abc123") "firefox" (VStr "http://host/vnc/abc123")
    (VStr "running") (VNum 5901) 0.

(** The same page, reached through the Firefox button. *)
Definition one_session_page : Page :=
  page_run (engine := v8)
    [PressOption 0; Network (Settle 0 (ok_json abc123)); Network (BodyRead 0)]
    page_init.

Section Proofs.
Context {engine : Engine}.

(** ** The registry operations *)

Lemma Set_delete_absent x s : x ∉ s → Set_delete x s = s.
Proof.
  intros Hx. unfold Set_delete. induction s as [|y s IH]; [done|].
  rewrite filter_cons. destruct (decide (y ≠ x)) as [_|Hy].
  - f_equal. apply IH. intros H. apply Hx. by right.
  - destruct Hx. apply dec_stable in Hy. subst. by left.
Qed.

Lemma filter_id_absent x (l : list Session) :
  x ∉ id <$> l → filter (λ s, id s ≠ x) l = l.
Proof.
  intros Hx. induction l as [|s l IH]; [done|].
  rewrite filter_cons. destruct (decide (id s ≠ x)) as [_|Hs].
  - f_equal. apply IH. intros H. apply Hx. rewrite fmap_cons. by right.
  - destruct Hx. apply dec_stable in Hs. rewrite fmap_cons, <- Hs. by left.
Qed.

Lemma Set_delete_not_elem x s : x ∉ Set_delete x s.
Proof. unfold Set_delete. rewrite list_elem_of_filter. tauto. Qed.

Lemma filter_id_not_elem x (l : list Session) :
  x ∉ id <$> filter (λ s, id s ≠ x) l.
Proof.
  rewrite list_elem_of_fmap. intros (s & -> & Hs).
  apply list_elem_of_filter in Hs. tauto.
Qed.

Lemma Set_add_elem x y s : x ∈ Set_add y s ↔ x = y ∨ x ∈ s.
Proof.
  unfold Set_add. destruct (decide (y ∈ s)) as [Hy|Hy].
  - split; [tauto|]. intros [->|H]; done.
  - rewrite elem_of_app, list_elem_of_singleton. tauto.
Qed.


Lemma Set_add_NoDup x s : NoDup s → NoDup (Set_add x s).
Proof.
  intros Hs. unfold Set_add. destruct (decide (x ∈ s)) as [Hx|Hx]; [done|].
  apply NoDup_app. split_and!; [done| |apply NoDup_singleton].
  intros y Hy ->%list_elem_of_singleton. done.
Qed.

Lemma Set_delete_NoDup x s : NoDup s → NoDup (Set_delete x s).
Proof. apply NoDup_filter. Qed.

Lemma consistent_remove x st : consistent st → consistent (registry_remove x st).
Proof.
  intros Hc y. specialize (Hc y). unfold session_ids in *. simpl.
  unfold Set_delete. rewrite list_elem_of_filter, <- Hc.
  rewrite !list_elem_of_fmap. split.
  - intros (s & -> & Hs). apply list_elem_of_filter in Hs as [? ?]. eauto.
  - intros (Hy & s & -> & Hs). exists s. split; [done|].
    by apply list_elem_of_filter.
Qed.

Lemma consistent_insert s st :
  consistent st → consistent (registry_insert s (id s) st).
Proof.
  intros Hc y. specialize (Hc y). unfold session_ids in *. simpl.
  rewrite Set_add_elem, <- Hc, fmap_app, elem_of_app. simpl.
  rewrite list_elem_of_singleton. tauto.
Qed.

Lemma registry_remove_twice x st :
  registry_remove x (registry_remove x st) = registry_remove x st.
Proof.
  unfold registry_remove, sessionsRef_delete, setSessions. simpl. f_equal.
  - apply filter_id_absent, filter_id_not_elem.
  - apply Set_delete_absent, Set_delete_not_elem.
Qed.

Lemma registry_remove_absent x st :
  x ∉ sessionsRef st → consistent st → registry_remove x st = st.
Proof.
  intros Hx Hc. destruct st as [l ? ? ? s ?].
  unfold registry_remove, sessionsRef_delete, setSessions. simpl in *. f_equal.
  - apply filter_id_absent. intros H. by apply Hx, Hc.
  - by apply Set_delete_absent.
Qed.

(** ** What each call does up to its first [await] *)

Lemma call_cleanupSession sessionId w :
  call (cleanupSession sessionId) w =
  mkWorld (store w) (clock w)
    (promises w ++ [Pending (Cleanup (js_to_string sessionId))])
    (tasks w ++
      [(calls w, OnFetch (length (promises w)) (cleanupSession_settled sessionId))])
    (S (calls w)) (resolved w).
Proof.
  unfold call, cleanupSession. simpl. by rewrite list_lookup_middle.
Qed.

Lemma call_launchBrowser browserType w :
  call (launchBrowser browserType) w =
  mkWorld
    (setError "" (setLaunchingBrowser (Some browserType) (setLoading true (store w))))
    (clock w)
    (promises w ++ [Pending (Launch browserType)])
    (tasks w ++
      [(calls w, OnFetch (length (promises w)) (launchBrowser_response browserType))])
    (S (calls w)) (resolved w).
Proof.
  unfold call, launchBrowser. simpl. by rewrite list_lookup_middle.
Qed.

Lemma length_cleanup_requests ids : length (cleanup_requests ids) = length ids.
Proof. apply length_fmap. Qed.

Lemma exec_map_fetch ids k c w :
  exec c (map_fetch ids k) w =
  exec c (k (seq (length (promises w)) (length ids)))
    (mkWorld (store w) (clock w) (promises w ++ cleanup_requests ids)
       (tasks w) (calls w) (resolved w)).
Proof.
  revert k w. induction ids as [|x ids IH]; intros k w.
  - simpl. unfold cleanup_requests. simpl. rewrite app_nil_r. by destruct w.
  - simpl. rewrite IH. simpl. rewrite length_app. simpl.
    replace (length (promises w) + 1) with (S (length (promises w))) by lia.
    by rewrite <- app_assoc.
Qed.

Lemma first_rejection_pending w ps :
  Forall (λ p, ∃ req, promises w !! p = Some (Pending req)) ps →
  first_rejection w ps = None.
Proof.
  induction 1 as [|p ps [req Hp] _ IH]; [done|]. simpl. by rewrite Hp.
Qed.

Lemma filter_pending_all w ps :
  Forall (λ p, ∃ req, promises w !! p = Some (Pending req)) ps →
  filter (λ p, is_pending w p = true) ps = ps.
Proof.
  induction 1 as [|p ps [req Hp] _ IH]; [done|].
  rewrite filter_cons, IH. rewrite decide_True; [done|].
  unfold is_pending. by rewrite Hp.
Qed.

Lemma cleanup_requests_pending l ids :
  Forall (λ p, ∃ req, (l ++ cleanup_requests ids) !! p = Some (Pending req))
    (seq (length l) (length ids)).
Proof.
  apply Forall_forall. intros p [Hp1 Hp2]%elem_of_seq.
  rewrite lookup_app_r by lia. unfold cleanup_requests.
  rewrite list_lookup_fmap.
  destruct (lookup_lt_is_Some_2 ids (p - length l)) as [x Hx]; [lia|].
  rewrite Hx. simpl. eauto.
Qed.

Lemma call_handleBeforeUnload w :
  call handleBeforeUnload w =
  let ids := sessionsRef (store w) in
  let w' := mkWorld (store w) (clock w) (promises w ++ cleanup_requests ids)
              (tasks w) (S (calls w)) (resolved w) in
  match ids with
  | [] => resolve (calls w) w'
  | _ => park (calls w, OnAll (seq (length (promises w)) (length ids))
                          handleBeforeUnload_settled) w'
  end.
Proof.
  unfold call, handleBeforeUnload. cbn [exec store]. rewrite exec_map_fetch.
  cbn [exec store clock promises tasks calls resolved].
  pose proof (cleanup_requests_pending (promises w) (sessionsRef (store w))) as Hp.
  set (w' := mkWorld _ _ (promises w ++ _) _ _ _).
  rewrite (first_rejection_pending w'), (filter_pending_all w') by done.
  by destruct (sessionsRef (store w)).
Qed.

(** ** What each call does when it resumes *)

Lemma exec_cleanupSession_settled c sessionId r w :
  exec c (cleanupSession_settled sessionId r) w =
  resolve c (with_store
    (match r with
     | Fulfilled _ => registry_remove sessionId
     | Rejected err => console_error "Cleanup error:" err
     end) w).
Proof. by destruct r. Qed.

Lemma exec_handleBeforeUnload_settled c r w :
  exec c (handleBeforeUnload_settled r) w =
  resolve c (with_store
    (match r with
     | Fulfilled _ => λ st, st
     | Rejected err => console_error "Error during cleanup:" err
     end) w).
Proof. destruct r; [|done]. by destruct w. Qed.

Lemma exec_launchBrowser_catch c err w :
  exec c (launchBrowser_catch err) w = resolve c (with_store (launch_failed err) w).
Proof. done. Qed.

Lemma exec_launchBrowser_response c browserType r w :
  exec c (launchBrowser_response browserType r) w =
  match r with
  | Rejected err => resolve c (with_store (launch_failed err) w)
  | Fulfilled response =>
      park (c, OnJson response
                 (if negb (ok response) then launchBrowser_errorData
                  else launchBrowser_data browserType)) w
  end.
Proof. destruct r as [response|err]; [|done]. simpl. by destruct (ok response). Qed.

Lemma exec_launchBrowser_errorData c r w :
  exec c (launchBrowser_errorData r) w =
  resolve c (with_store (launch_failed (errorData_error r)) w).
Proof.
  destruct r as [errorData|err]; [|done]. simpl.
  by destruct (get_prop errorData "detail").
Qed.

Lemma exec_launchBrowser_data c browserType r w :
  exec c (launchBrowser_data browserType r) w =
  resolve c (with_store
    (match data_session browserType (clock w) r with
     | Normal newSession => launch_succeeded newSession
     | Throw err => launch_failed err
     end) w).
Proof.
  destruct r as [data|err]; [|done].
  destruct data as [fields| |[]]; done.
Qed.

(** ** Reachable worlds satisfy [Inv] *)

Lemma keeps_registry_ok f st : keeps_registry f → store_ok st → store_ok (f st).
Proof.
  intros Hf [Hc Hn]. specialize (Hf st). unfold registry in Hf.
  injection Hf as Hs Hr. split.
  - intros x. specialize (Hc x). unfold session_ids in *. by rewrite Hs, Hr.
  - by rewrite Hr.
Qed.

Lemma launch_failed_keeps err : keeps_registry (launch_failed err).
Proof. done. Qed.

Lemma console_error_keeps label err : keeps_registry (console_error label err).
Proof. done. Qed.

Lemma registry_remove_ok x st : store_ok st → store_ok (registry_remove x st).
Proof.
  intros [Hc Hn]. split; [by apply consistent_remove|].
  by apply Set_delete_NoDup.
Qed.

Lemma launch_succeeded_ok s st : store_ok st → store_ok (launch_succeeded s st).
Proof.
  intros [Hc Hn]. split.
  - apply (consistent_insert s) in Hc. intros x. apply Hc.
  - simpl. by apply Set_add_NoDup.
Qed.

Lemma known_task_mono n m t : n ≤ m → known_task n t → known_task m t.
Proof.
  intros Hnm [p x Hp|p b Hp|r|r b|qs Hne Hqs]; constructor; try lia; try done.
  eapply Forall_impl; [done|]. simpl. lia.
Qed.

Lemma Inv_store_ok w : Inv w → store_ok (store w).
Proof. intros [? ? ? ?]. by split. Qed.

Lemma Inv_with_store f w :
  (store_ok (store w) → store_ok (f (store w))) → Inv w → Inv (with_store f w).
Proof.
  intros Hf HI. destruct (Hf (Inv_store_ok _ HI)) as [? ?].
  destruct HI. by constructor.
Qed.

Lemma Inv_resolve c w : c < calls w → Inv w → Inv (resolve c w).
Proof.
  intros Hc []. constructor; try done. simpl.
  apply Forall_app. split; [done|]. by apply Forall_singleton.
Qed.

Lemma Inv_park c t w :
  c < calls w → known_task (length (promises w)) t → Inv w → Inv (park (c, t) w).
Proof.
  intros Hc Ht []. constructor; try done. simpl.
  apply Forall_app. split; [done|]. by apply Forall_singleton.
Qed.

(** Resuming a known task keeps [Inv] and sends no request. *)
Lemma notify_Inv p r w t :
  Inv w → t.1 < calls w → known_task (length (promises w)) t.2 →
  Inv (notify p r w t) ∧
  promises (notify p r w t) = promises w ∧ calls (notify p r w t) = calls w.
Proof.
  intros HI Hc Hk. destruct t as [c t]. simpl in Hc, Hk.
  assert (∀ w', Inv w' → promises w' = promises w → calls w' = calls w →
    Inv w' ∧ promises w' = promises w ∧ calls w' = calls w) as Hfin by done.
  assert (Inv (park (c, t) w)) as Hpark by by apply Inv_park.
  inversion Hk as [q x Hq|q b Hq|resp|resp b|qs Hne Hqs]; subst t; simpl.
  - destruct (decide (q = p)); [|exact (Hfin _ Hpark eq_refl eq_refl)].
    rewrite exec_cleanupSession_settled. apply Hfin; [|done..].
    apply Inv_resolve; [done|]. apply Inv_with_store; [|done].
    destruct r; [apply registry_remove_ok|].
    by apply keeps_registry_ok, console_error_keeps.
  - destruct (decide (q = p)); [|exact (Hfin _ Hpark eq_refl eq_refl)].
    rewrite exec_launchBrowser_response. destruct r as [response|err].
    + apply Hfin; [|done..]. apply Inv_park; [done| |done].
      destruct (negb (ok response)); constructor.
    + apply Hfin; [|done..]. apply Inv_resolve; [done|].
      apply Inv_with_store; [|done].
      by apply keeps_registry_ok, launch_failed_keeps.
  - exact (Hfin _ Hpark eq_refl eq_refl).
  - exact (Hfin _ Hpark eq_refl eq_refl).
  - destruct (decide (p ∈ qs)); [|exact (Hfin _ Hpark eq_refl eq_refl)].
    assert (∀ r', Inv (exec c (handleBeforeUnload_settled r') w) ∧
      promises (exec c (handleBeforeUnload_settled r') w) = promises w ∧
      calls (exec c (handleBeforeUnload_settled r') w) = calls w) as Hex.
    { intros r'. rewrite exec_handleBeforeUnload_settled. apply Hfin; [|done..].
      apply Inv_resolve; [done|]. apply Inv_with_store; [|done].
      destruct r'; [done|]. by apply keeps_registry_ok, console_error_keeps. }
    destruct r as [response|err]; [|exact (Hex (Rejected err))].
    destruct (filter (λ q, q ≠ p) qs) as [|q qs'] eqn:E;
      [exact (Hex (Fulfilled ()))|].
    apply Hfin; [|done..]. apply Inv_park; [done| |done].
    constructor; [done|]. rewrite <- E. apply Forall_forall.
    intros x [_ Hx]%list_elem_of_filter. rewrite Forall_forall in Hqs. auto.
Qed.

Lemma foldl_notify_Inv p r ts w :
  Inv w →
  Forall (λ t, t.1 < calls w ∧ known_task (length (promises w)) t.2) ts →
  Inv (foldl (notify p r) w ts) ∧
  promises (foldl (notify p r) w ts) = promises w ∧
  calls (foldl (notify p r) w ts) = calls w.
Proof.
  revert w. induction ts as [|t ts IH]; intros w HI Hts; [done|].
  apply Forall_cons in Hts as [[Hc Hk] Hts]. simpl.
  destruct (notify_Inv p r w t HI Hc Hk) as (HI' & Hp & Hcalls).
  destruct (IH (notify p r w t) HI') as (? & ? & ?).
  { by rewrite Hp, Hcalls. }
  split_and!; [done|congruence..].
Qed.

Lemma settle_Inv p r w : Inv w → Inv (settle p r w).
Proof.
  intros HI. unfold settle.
  destruct (promises w !! p) as [[req|]|] eqn:E; try done.
  apply foldl_notify_Inv.
  - destruct HI. by constructor.
  - simpl. rewrite length_insert. by destruct HI.
Qed.

Lemma body_read_Inv i w : Inv w → Inv (body_read i w).
Proof.
  intros HI. unfold body_read.
  destruct (tasks w !! i) as [[c [| |response k]]|] eqn:E; try done.
  pose proof (inv_tasks w HI) as Hts.
  rewrite Forall_lookup in Hts. destruct (Hts _ _ E) as [Hc Hk]. simpl in *.
  assert (Inv (with_tasks (delete i (tasks w)) w)) as HI'.
  { destruct HI. constructor; try done. simpl. by apply Forall_delete. }
  inversion Hk; subst.
  - rewrite exec_launchBrowser_errorData. apply Inv_resolve; [done|].
    apply Inv_with_store; [|done].
    by apply keeps_registry_ok, launch_failed_keeps.
  - rewrite exec_launchBrowser_data. apply Inv_resolve; [done|].
    apply Inv_with_store; [|done]. simpl.
    destruct (data_session _ _ _).
    + apply launch_succeeded_ok.
    + by apply keeps_registry_ok, launch_failed_keeps.
Qed.

Lemma Inv_tasks_next w l :
  Inv w →
  Forall (λ t, t.1 < S (calls w) ∧ known_task (length (promises w ++ l)) t.2)
    (tasks w).
Proof.
  intros HI. eapply Forall_impl; [apply (inv_tasks w HI)|].
  intros t [? ?]. split; [lia|].
  eapply known_task_mono; [|done]. rewrite length_app. lia.
Qed.

Lemma step_Inv ev w : Inv w → Inv (step ev w).
Proof.
  intros HI. destruct ev as [b|x| | |now|p r|i]; simpl.
  - rewrite call_launchBrowser. pose proof (Inv_tasks_next w [Pending (Launch b)] HI).
    destruct HI. constructor; simpl; try done.
    + apply Forall_app. split; [done|]. apply Forall_singleton. simpl.
      split; [lia|]. constructor. rewrite length_app. simpl. lia.
    + eapply Forall_impl; [done|]. simpl. lia.
  - rewrite call_cleanupSession.
    pose proof (Inv_tasks_next w [Pending (Cleanup (js_to_string x))] HI).
    destruct HI. constructor; simpl; try done.
    + apply Forall_app. split; [done|]. apply Forall_singleton. simpl.
      split; [lia|]. constructor. rewrite length_app. simpl. lia.
    + eapply Forall_impl; [done|]. simpl. lia.
  - rewrite call_handleBeforeUnload. simpl.
    pose proof (Inv_tasks_next w (cleanup_requests (sessionsRef (store w))) HI).
    assert (Forall (λ c, c < S (calls w)) (resolved w)).
    { eapply Forall_impl; [apply (inv_resolved w HI)|]. simpl. lia. }
    destruct (sessionsRef (store w)) as [|x ids] eqn:E.
    + destruct HI. constructor; simpl; try done.
      apply Forall_app. split; [done|]. apply Forall_singleton. lia.
    + destruct HI. constructor; simpl; try done.
      apply Forall_app. split; [done|]. apply Forall_singleton. simpl.
      split; [lia|]. constructor; [done|].
      apply Forall_forall. intros q Hq.
      change (q ∈ seq (length (promises w)) (length (x :: ids))) in Hq.
      apply elem_of_seq in Hq. rewrite length_app. simpl in *.
      rewrite length_cleanup_requests. lia.
  - apply Inv_with_store; [|done]. by apply keeps_registry_ok.
  - by destruct HI.
  - by apply settle_Inv.
  - by apply body_read_Inv.
Qed.

Lemma Inv_init : Inv init.
Proof.
  constructor; simpl; by constructor.
Qed.

Lemma run_Inv_from evs w : Inv w → Inv (run evs w).
Proof.
  revert w. induction evs as [|ev evs IH]; intros w HI; [done|].
  simpl. by apply IH, step_Inv.
Qed.

Lemma run_Inv evs : Inv (run evs init).
Proof. apply run_Inv_from, Inv_init. Qed.

Lemma run_snoc evs ev w : run (evs ++ [ev]) w = step ev (run evs w).
Proof. unfold run. by rewrite foldl_app. Qed.

(** ** Settling the promise of the call made last *)

Lemma notify_not_waiting p r w t : ¬ waits_on p t → notify p r w t = park t w.
Proof.
  destruct t as [c [q k|qs k|response k]]; unfold waits_on; simpl; intros H.
  - by rewrite decide_False.
  - by rewrite decide_False.
  - done.
Qed.

Lemma known_not_waiting n p t : n ≤ p → known_task n t.2 → ¬ waits_on p t.
Proof.
  intros Hnp Hk Hw. destruct t as [c t]. unfold waits_on in Hw. simpl in *.
  destruct Hk as [q x Hq|q b Hq|resp|resp b|qs Hne Hqs]; try lia; try done.
  rewrite Forall_forall in Hqs. apply Hqs in Hw. lia.
Qed.

Lemma foldl_notify_park p r ts w :
  Forall (λ t, ¬ waits_on p t) ts →
  foldl (notify p r) w ts = with_tasks (tasks w ++ ts) w.
Proof.
  revert w. induction ts as [|t ts IH]; intros w Hts.
  - simpl. rewrite app_nil_r. by destruct w.
  - apply Forall_cons in Hts as [Ht Hts]. simpl.
    rewrite notify_not_waiting, IH by done. unfold park, with_tasks. simpl.
    by rewrite <- app_assoc.
Qed.

Lemma Inv_not_waiting w p :
  Inv w → length (promises w) ≤ p → Forall (λ t, ¬ waits_on p t) (tasks w).
Proof.
  intros HI Hp. eapply Forall_impl; [apply (inv_tasks w HI)|].
  intros t [_ Hk]. by eapply known_not_waiting.
Qed.

Lemma settle_fresh w st clk req c k m res r :
  Inv w →
  settle (length (promises w)) r
    (mkWorld st clk (promises w ++ [Pending req])
       (tasks w ++ [(c, OnFetch (length (promises w)) k)]) m res) =
  exec c (k r) (mkWorld st clk (promises w ++ [Done r]) (tasks w) m res).
Proof.
  intros HI. unfold settle. cbn [promises tasks store clock calls resolved].
  rewrite list_lookup_middle by done.
  rewrite insert_app_r_alt, Nat.sub_diag by done. simpl insert.
  rewrite foldl_app, (foldl_notify_park _ _ (tasks w))
    by by apply Inv_not_waiting.
  simpl. by rewrite decide_True.
Qed.

(** A close and the settlement of its request. *)
Lemma close_settled w sessionId r :
  Inv w →
  step (Settle (length (promises w)) r) (step (ClickClose sessionId) w) =
  mkWorld
    (match r with
     | Fulfilled _ => registry_remove sessionId (store w)
     | Rejected err => console_error "Cleanup error:" err (store w)
     end)
    (clock w) (promises w ++ [Done r]) (tasks w) (S (calls w))
    (resolved w ++ [calls w]).
Proof.
  intros HI. simpl. rewrite call_cleanupSession, settle_fresh by done.
  rewrite exec_cleanupSession_settled. by destruct r.
Qed.



(** ** Which resumptions touch the registry *)

(** Resuming a task changes the registry only if the task is a
    [cleanupSession] whose request was answered. *)
Lemma notify_registry p r w t n :
  known_task n t.2 →
  registry (store (notify p r w t)) = registry (store w) ∨
  ∃ response c sessionId,
    r = Fulfilled response ∧ t = (c, OnFetch p (cleanupSession_settled sessionId)).
Proof.
  destruct t as [c t]. simpl.
  intros [q x Hq|q b Hq|resp|resp b|qs Hne Hqs]; simpl.
  - destruct (decide (q = p)) as [->|]; [|by left].
    destruct r as [response|err]; [right; eauto|].
    left. by rewrite exec_cleanupSession_settled.
  - destruct (decide (q = p)); [|by left]. left.
    rewrite exec_launchBrowser_response. by destruct r.
  - by left.
  - by left.
  - left. destruct (decide (p ∈ qs)); [|done].
    destruct r as [response|err]; [|done].
    by destruct (filter (λ q, q ≠ p) qs).
Qed.

Lemma foldl_notify_registry p r ts w n :
  Forall (λ t, known_task n t.2) ts →
  registry (store (foldl (notify p r) w ts)) = registry (store w) ∨
  ∃ response c sessionId,
    r = Fulfilled response ∧
    (c, OnFetch p (cleanupSession_settled sessionId)) ∈ ts.
Proof.
  revert w. induction ts as [|t ts IH]; intros w Hts; [by left|].
  apply Forall_cons in Hts as [Ht Hts]. simpl.
  destruct (notify_registry p r w t n Ht) as [Hr|(response & c & x & -> & ->)].
  - destruct (IH (notify p r w t) Hts) as [Hr'|(response & c & x & -> & Hin)].
    + left. congruence.
    + right. exists response, c, x. split; [done|]. by right.
  - right. exists response, c, x. split; [done|]. by left.
Qed.

Lemma notify_unload_frame p r w t n :
  n ≤ p → old_or_unload n t → Forall (old_or_unload n) (tasks w) →
  registry (store (notify p r w t)) = registry (store w) ∧
  Forall (old_or_unload n) (tasks (notify p r w t)).
Proof.
  intros Hnp Ht Hts.
  assert (Forall (old_or_unload n) (tasks (park t w))) as Hpark.
  { simpl. apply Forall_app. split; [done|]. by apply Forall_singleton. }
  destruct Ht as [Hk|[qs Hqs]].
  - rewrite notify_not_waiting by by eapply known_not_waiting. done.
  - destruct t as [c t]. simpl in Hqs. subst t. simpl.
    destruct (decide (p ∈ qs)); [|done].
    destruct r as [response|err]; [|done].
    destruct (filter (λ q, q ≠ p) qs) as [|q qs'] eqn:E; [done|].
    split; [done|]. simpl. apply Forall_app. split; [done|].
    apply Forall_singleton. right. by eexists.
Qed.

Lemma foldl_notify_unload_frame p r ts w n :
  n ≤ p → Forall (old_or_unload n) ts → Forall (old_or_unload n) (tasks w) →
  registry (store (foldl (notify p r) w ts)) = registry (store w) ∧
  Forall (old_or_unload n) (tasks (foldl (notify p r) w ts)).
Proof.
  intros Hnp. revert w. induction ts as [|t ts IH]; intros w Hts Hw; [done|].
  apply Forall_cons in Hts as [Ht Hts]. simpl.
  destruct (notify_unload_frame p r w t n Hnp Ht Hw) as [Hr Hw'].
  destruct (IH _ Hts Hw') as [Hr' ?]. split; [congruence|done].
Qed.

Lemma settle_unload_frame p r w n :
  n ≤ p → Forall (old_or_unload n) (tasks w) →
  registry (store (settle p r w)) = registry (store w) ∧
  Forall (old_or_unload n) (tasks (settle p r w)).
Proof.
  intros Hnp Hw. unfold settle.
  destruct (promises w !! p) as [[req|]|]; try done.
  set (w0 := mkWorld _ _ _ [] _ _).
  destruct (foldl_notify_unload_frame p r (tasks w) w0 n) as [Hr Hts];
    [done..|by constructor|].
  by split.
Qed.

Lemma run_settle_unload_frame (rs : list (nat * Settled Response)) w n :
  Forall (old_or_unload n) (tasks w) →
  registry (store (run ((λ jr, Settle (n + jr.1) jr.2) <$> rs) w)) =
  registry (store w).
Proof.
  revert w. induction rs as [|[j r] rs IH]; intros w Hw; [done|].
  simpl. destruct (settle_unload_frame (n + j) r w n) as [Hr Hw']; [lia|done|].
  fold (run ((λ jr, Settle (n + jr.1) jr.2) <$> rs) (settle (n + j) r w)).
  rewrite IH by done. done.
Qed.

(** ** What running a call can touch *)

Lemma frame_refl c w : frame c w w.
Proof. by split_and!. Qed.

Lemma frame_trans c w1 w2 w3 : frame c w1 w2 → frame c w2 w3 → frame c w1 w3.
Proof.
  intros (Hp & Hc & Hr & Ho) (Hp' & Hc' & Hr' & Ho'). split_and!.
  - by etrans.
  - congruence.
  - auto.
  - intros c' Hne. destruct (Ho c' Hne) as [? ?], (Ho' c' Hne) as [? ?].
    split; [congruence|auto].
Qed.

Lemma tasks_of_snoc_other c c' ts t :
  c' ≠ c → tasks_of c' (ts ++ [(c, t)]) = tasks_of c' ts.
Proof.
  intros Hne. unfold tasks_of. rewrite filter_app, filter_cons. simpl.
  rewrite decide_False by done. by rewrite filter_nil, app_nil_r.
Qed.

Lemma frame_park c t w : frame c w (park (c, t) w).
Proof.
  split_and!; try done. intros c' Hne. simpl.
  by rewrite tasks_of_snoc_other.
Qed.

Lemma frame_resolve c w : frame c w (resolve c w).
Proof.
  split_and!; try done; simpl.
  - intros x Hx. apply elem_of_app. by left.
  - intros c' Hne. split; [done|].
    intros [?| ->%list_elem_of_singleton]%elem_of_app; done.
Qed.

Lemma exec_frame a : ∀ c w, frame c w (exec c a w).
Proof.
  induction a as [|f k IH|k IH|k IH|req k IH|p k IH|ps k IH|response k];
    intros c w; simpl.
  - apply frame_resolve.
  - eapply frame_trans; [|apply IH]. by split_and!.
  - apply IH.
  - apply IH.
  - eapply frame_trans; [|apply IH]. split_and!; try done.
    simpl. by apply prefix_app_r.
  - destruct (promises w !! p) as [[req|r]|]; [apply frame_park|apply IH|].
    apply frame_park.
  - destruct (first_rejection w ps); [apply IH|].
    destruct (filter _ ps); [apply IH|apply frame_park].
  - apply frame_park.
Qed.

Lemma notify_frame p r w t : frame t.1 w (notify p r w t).
Proof.
  destruct t as [c [q k|qs k|response k]]; simpl.
  - destruct (decide (q = p)); [apply exec_frame|apply frame_park].
  - destruct (decide (p ∈ qs)); [|apply frame_park].
    destruct r; [|apply exec_frame].
    destruct (filter _ qs); [apply exec_frame|apply frame_park].
  - apply frame_park.
Qed.

Lemma frame_keeps c c' w w' : c ≠ c' → frame c' w w' → keeps c w w'.
Proof.
  intros Hne (Hp & Hc & Hr & Ho). destruct (Ho c Hne) as [? ?].
  split_and!; try done. split; auto.
Qed.

Lemma keeps_trans c w1 w2 w3 : keeps c w1 w2 → keeps c w2 w3 → keeps c w1 w3.
Proof.
  intros (Hp & Hc & Ht & Hr) (Hp' & Hc' & Ht' & Hr'). split_and!.
  - by etrans.
  - congruence.
  - congruence.
  - by rewrite Hr'.
Qed.

Lemma foldl_notify_keeps c p r ts w :
  Forall (λ t, t.1 ≠ c) ts → keeps c w (foldl (notify p r) w ts).
Proof.
  revert w. induction ts as [|t ts IH]; intros w Hts.
  - by split_and!.
  - apply Forall_cons in Hts as [Ht Hts]. simpl.
    eapply keeps_trans; [|by apply IH].
    eapply frame_keeps; [|apply notify_frame]. done.
Qed.

Lemma tasks_of_singleton_split c ts t :
  tasks_of c ts = [t] →
  ∃ l1 l2, ts = l1 ++ t :: l2 ∧
    Forall (λ t, t.1 ≠ c) l1 ∧ Forall (λ t, t.1 ≠ c) l2.
Proof.
  unfold tasks_of. induction ts as [|x ts IH]; [done|].
  rewrite filter_cons. destruct (decide (x.1 = c)) as [Hx|Hx].
  - intros [= -> Hnil]. exists [], ts. split_and!; [done|by constructor|].
    apply Forall_forall. intros y Hy Hc.
    assert (y ∈ filter (λ t, t.1 = c) ts) as Hin by by apply list_elem_of_filter.
    rewrite Hnil in Hin. by apply not_elem_of_nil in Hin.
  - intros Hf. destruct (IH Hf) as (l1 & l2 & -> & H1 & H2).
    exists (x :: l1), l2. split_and!; [done| |done]. by constructor.
Qed.

Lemma tasks_of_delete_other c ts i t :
  ts !! i = Some t → t.1 ≠ c → tasks_of c (delete i ts) = tasks_of c ts.
Proof.
  unfold tasks_of. revert i. induction ts as [|x ts IH]; intros i; [done|].
  destruct i as [|i]; simpl.
  - intros [= ->] Ht. by rewrite filter_cons, decide_False.
  - intros Hi Ht. rewrite !filter_cons, IH by done. done.
Qed.

(** ** When the call of [handleBeforeUnload] returns *)

Lemma filter_ext_in {A} (P Q : A → Prop) `{!∀ x, Decision (P x)}
    `{!∀ x, Decision (Q x)} (l : list A) :
  (∀ x, x ∈ l → (P x ↔ Q x)) → filter P l = filter Q l.
Proof.
  induction l as [|x l IH]; intros HPQ; [done|].
  rewrite !filter_cons, IH.
  - apply decide_ext, HPQ. by left.
  - intros y Hy. apply HPQ. by right.
Qed.

Lemma status_agree w w' p :
  promises w' !! p = promises w !! p →
  is_pending w' p = is_pending w p ∧
  is_fulfilled w' p = is_fulfilled w p ∧
  is_rejected w' p = is_rejected w p.
Proof. unfold is_pending, is_fulfilled, is_rejected. by intros ->. Qed.

Lemma unload_inv_agree c H w w' :
  unload_inv c H w →
  (∀ p, p ∈ H → promises w' !! p = promises w !! p) →
  calls w ≤ calls w' →
  length (promises w) ≤ length (promises w') →
  tasks_of c (tasks w') = tasks_of c (tasks w) →
  (c ∈ resolved w' ↔ c ∈ resolved w) →
  unload_inv c H w'.
Proof.
  intros (Hc & Hb & HJ) Hag Hcalls Hlen Hts Hres.
  assert (∀ p, p ∈ H → is_pending w' p = is_pending w p ∧
    is_fulfilled w' p = is_fulfilled w p ∧
    is_rejected w' p = is_rejected w p) as Hst.
  { intros p Hp. by apply status_agree, Hag. }
  assert (filter (λ p, is_pending w' p = true) H =
          filter (λ p, is_pending w p = true) H) as Hpend.
  { apply filter_ext_in. intros p Hp. destruct (Hst p Hp) as (-> & _). done. }
  split_and!; [lia| |].
  { eapply Forall_impl; [done|]. simpl. lia. }
  destruct HJ as [[Hr Hdone]|(Hr & Hrej & Hne & Hmine)]; [left|right].
  - split; [by apply Hres|]. destruct Hdone as [Hf|He]; [left|right].
    + rewrite Forall_forall in Hf |- *. intros p Hp.
      destruct (Hst p Hp) as (_ & -> & _). auto.
    + rewrite Exists_exists in He |- *. destruct He as (p & Hp & He).
      exists p. split; [done|]. destruct (Hst p Hp) as (_ & _ & ->). done.
  - split_and!.
    + by rewrite Hres.
    + rewrite Forall_forall in Hrej |- *. intros p Hp.
      destruct (Hst p Hp) as (_ & _ & ->). auto.
    + by rewrite Hpend.
    + by rewrite Hpend, Hts.
Qed.

Lemma unload_inv_keeps c H w w' :
  unload_inv c H w → keeps c w w' → unload_inv c H w'.
Proof.
  intros HJ (Hp & Hc & Hts & Hr). eapply unload_inv_agree; try done.
  - intros p Hin. destruct HJ as (_ & Hb & _). rewrite Forall_forall in Hb.
    symmetry. apply prefix_lookup_lt; auto.
  - lia.
  - by apply prefix_length.
Qed.

Lemma unload_inv_call c H a w :
  unload_inv c H w → unload_inv c H (call a w).
Proof.
  intros HJ. unfold call.
  set (w' := mkWorld _ _ _ _ (S (calls w)) _).
  assert (unload_inv c H w') as HJ'.
  { eapply unload_inv_agree; try done. simpl. lia. }
  eapply unload_inv_keeps; [done|].
  eapply frame_keeps; [|apply exec_frame].
  destruct HJ as (? & _). lia.
Qed.

Lemma grows_trans w1 w2 w3 : grows w1 w2 → grows w2 w3 → grows w1 w3.
Proof.
  intros (? & ? & ? & ?) (? & ? & ? & ?). split_and!; [lia..|auto|auto].
Qed.

Lemma frame_grows c w w' : frame c w w' → grows w w'.
Proof.
  intros (Hp & Hc & Hr & _). split_and!; [lia| |done|].
  - by apply prefix_length.
  - intros p r Hpr. by eapply prefix_lookup_Some.
Qed.

Lemma foldl_notify_grows p r ts w : grows w (foldl (notify p r) w ts).
Proof.
  revert w. induction ts as [|t ts IH]; intros w; [by split_and!|].
  simpl. eapply grows_trans; [|apply IH].
  eapply frame_grows, notify_frame.
Qed.

Lemma step_grows ev w : grows w (step ev w).
Proof.
  destruct ev as [b|x| | |now|p r|i]; simpl;
    try (eapply grows_trans; [|eapply frame_grows, exec_frame];
         split_and!; simpl; by auto).
  - by split_and!.
  - by split_and!.
  - unfold settle. destruct (promises w !! p) as [[req|]|] eqn:E;
      try by split_and!.
    eapply grows_trans; [|apply foldl_notify_grows].
    split_and!; simpl; [done|by rewrite length_insert|done|].
    intros q r' Hq. rewrite list_lookup_insert_ne; [done|]. congruence.
  - unfold body_read.
    destruct (tasks w !! i) as [[c [| |response k]]|]; try by split_and!.
    eapply grows_trans; [|eapply frame_grows, exec_frame]. by split_and!.
Qed.

Lemma unload_inv_resolved c H w w' :
  c ∈ resolved w → unload_inv c H w → grows w w' → unload_inv c H w'.
Proof.
  intros Hr (Hc & Hb & HJ) (Hcalls & Hlen & Hres & Hdone).
  split_and!; [lia| |left].
  { eapply Forall_impl; [done|]. simpl. lia. }
  split; [auto|]. destruct HJ as [[_ HJ]|[? _]]; [|done].
  destruct HJ as [Hf|He]; [left|right].
  - eapply Forall_impl; [done|]. intros p. unfold is_fulfilled. simpl.
    destruct (promises w !! p) as [[|[response|err]]|] eqn:E; try done.
    by rewrite (Hdone _ _ E).
  - eapply Exists_impl; [done|]. intros p. unfold is_rejected. simpl.
    destruct (promises w !! p) as [[|[response|err]]|] eqn:E; try done.
    by rewrite (Hdone _ _ E).
Qed.

Lemma unload_inv_body_read c H i w :
  unload_inv c H w → unload_inv c H (body_read i w).
Proof.
  intros HJ. destruct (decide (c ∈ resolved w)) as [Hr|Hr].
  { eapply unload_inv_resolved; [done..|]. apply (step_grows (BodyRead i)). }
  unfold body_read.
  destruct (tasks w !! i) as [[c' [| |response k]]|] eqn:E; try done.
  assert (c' ≠ c) as Hne.
  { intros ->. destruct HJ as (_ & _ & [[? _]|(_ & _ & _ & Hmine)]); [done|].
    apply list_elem_of_lookup_2 in E.
    assert ((c, OnJson response k) ∈ tasks_of c (tasks w)) as Hin.
    { by apply list_elem_of_filter. }
    rewrite Hmine in Hin. by apply list_elem_of_singleton in Hin. }
  eapply unload_inv_keeps; [|eapply frame_keeps; [|apply exec_frame]]; [|done].
  eapply unload_inv_agree; try done. simpl.
  by eapply tasks_of_delete_other.
Qed.

Lemma tasks_of_snoc_own c ts t :
  tasks_of c (ts ++ [(c, t)]) = tasks_of c ts ++ [(c, t)].
Proof.
  unfold tasks_of. rewrite filter_app, filter_cons. simpl.
  by rewrite decide_True.
Qed.

(** What the settlement of [p] does to the task of [handleBeforeUnload]. *)
Lemma notify_unload_task p r w c qs :
  let w' := notify p r w (unload_task c qs) in
  promises w' = promises w ∧ calls w' = calls w ∧
  (((p ∉ qs) ∧ tasks w' = tasks w ++ [unload_task c qs] ∧
    resolved w' = resolved w) ∨
   (p ∈ qs ∧ (∃ err, r = Rejected err) ∧
    resolved w' = resolved w ++ [c] ∧ tasks w' = tasks w) ∨
   (p ∈ qs ∧ (∃ response, r = Fulfilled response) ∧
    filter (λ q, q ≠ p) qs = [] ∧
    resolved w' = resolved w ++ [c] ∧ tasks w' = tasks w) ∨
   (p ∈ qs ∧ (∃ response, r = Fulfilled response) ∧
    (filter (λ q, q ≠ p) qs ≠ []) ∧
    tasks w' = tasks w ++ [unload_task c (filter (λ q, q ≠ p) qs)] ∧
    resolved w' = resolved w)).
Proof.
  unfold unload_task. simpl.
  destruct (decide (p ∈ qs)) as [Hin|Hin]; [|split_and!; [done..|by left]].
  destruct r as [response|err].
  - destruct (filter (λ q, q ≠ p) qs) as [|q qs'] eqn:E.
    + split_and!; [done..|]. right. right. left. split_and!; eauto.
    + split_and!; [done..|]. right. right. right. split_and!; eauto.
  - split_and!; [done..|]. right. left. split_and!; eauto.
Qed.

Lemma unload_inv_settle c H p r w :
  unload_inv c H w → unload_inv c H (settle p r w).
Proof.
  intros HJ. destruct (decide (c ∈ resolved w)) as [Hr|Hr].
  { eapply unload_inv_resolved; [done..|]. apply (step_grows (Settle p r)). }
  unfold settle. destruct (promises w !! p) as [[req|]|] eqn:E; try done.
  destruct HJ as (Hc & Hb & [[? _]|(_ & Hrej & Hne & Hmine)]); [done|].
  rewrite Forall_forall in Hb. rewrite Forall_forall in Hrej.
  set (qs := filter (λ p, is_pending w p = true) H) in *.
  set (w0 := mkWorld _ _ _ [] _ _).
  destruct (tasks_of_singleton_split _ _ _ Hmine) as (l1 & l2 & -> & Hl1 & Hl2).
  rewrite foldl_app. cbn [foldl].
  pose proof (foldl_notify_keeps c p r l1 w0 Hl1) as (Hpa & Hca & Hta & Hra).
  set (wa := foldl (notify p r) w0 l1) in *.
  pose proof (notify_unload_task p r wa c qs) as (Hpb & Hcb & Hwb).
  set (wb := notify p r wa (unload_task c qs)) in *.
  pose proof (foldl_notify_keeps c p r l2 wb Hl2) as (Hp3 & Hc3 & Ht3 & Hr3).
  set (w3 := foldl (notify p r) wb l2) in *.
  assert (p < length (promises w)) as Hplt by by eapply lookup_lt_Some.
  assert (is_pending w p = true) as Hpend by (unfold is_pending; by rewrite E).
  assert (∀ q, q ∈ H →
    promises w3 !! q = if decide (q = p) then Some (Done r) else promises w !! q)
    as Hlook.
  { intros q Hq.
    assert (q < length (promises w0)) as Hq0.
    { simpl. rewrite length_insert. auto. }
    assert (q < length (promises wb)) as Hqb.
    { rewrite Hpb. eapply Nat.lt_le_trans; [done|by apply prefix_length]. }
    rewrite <- (prefix_lookup_lt _ _ q Hqb Hp3), Hpb,
      <- (prefix_lookup_lt _ _ q Hq0 Hpa).
    simpl. rewrite list_lookup_insert.
    destruct (decide (q = p)) as [->|]; [by rewrite decide_True|].
    rewrite decide_False; [done|]. intros [? _]. congruence. }
  assert (length (promises w) ≤ length (promises w3)) as Hlen.
  { etrans; [|by apply prefix_length]. rewrite Hpb.
    etrans; [|by apply prefix_length]. simpl. by rewrite length_insert. }
  assert (calls w3 = calls w) as Hcalls by (rewrite Hc3, Hcb, Hca; done).
  assert (∀ q, q ∈ qs ↔ q ∈ H ∧ is_pending w q = true) as Hqs.
  { intros q. unfold qs. rewrite list_elem_of_filter. tauto. }
  split_and!; [lia| |].
  { apply Forall_forall. intros q Hq. specialize (Hb q Hq). lia. }
  destruct Hwb as [(Hnin & Htb & Hrb)|[(Hin & [err ->] & Hrb & Htb)|
    [(Hin & [response ->] & Hnil & Hrb & Htb)|
     (Hin & [response ->] & Hcons & Htb & Hrb)]]].
  - (* another promise settled *)
    assert (∀ q, q ∈ H → promises w3 !! q = promises w !! q) as Hsame.
    { intros q Hq. rewrite Hlook by done. rewrite decide_False; [done|].
      intros ->. apply Hnin, Hqs. done. }
    assert (filter (λ q, is_pending w3 q = true) H = qs) as Hfil.
    { apply filter_ext_in. intros q Hq.
      by destruct (status_agree w w3 q (Hsame q Hq)) as (-> & _). }
    right. split_and!.
    + rewrite Hr3, Hrb, Hra. done.
    + apply Forall_forall. intros q Hq.
      destruct (status_agree w w3 q (Hsame q Hq)) as (_ & _ & ->). auto.
    + by rewrite Hfil.
    + rewrite Hfil, Ht3, Htb. unfold unload_task.
      rewrite tasks_of_snoc_own, Hta. done.
  - (* a request of the call is rejected *)
    left. split.
    + apply Hr3. rewrite Hrb. apply elem_of_app. right. by left.
    + right. apply Exists_exists. exists p. apply Hqs in Hin as [HpH _].
      split; [done|]. unfold is_rejected. rewrite Hlook by done.
      by rewrite decide_True.
  - (* the last request of the call is answered *)
    left. split.
    + apply Hr3. rewrite Hrb. apply elem_of_app. right. by left.
    + left. apply Forall_forall. intros q Hq. unfold is_fulfilled.
      rewrite Hlook by done. destruct (decide (q = p)) as [->|Hqp]; [done|].
      assert (q ∉ qs) as Hq'.
      { intros Hq'. assert (q ∈ filter (λ q, q ≠ p) qs) as Hc'.
        { by apply list_elem_of_filter. }
        rewrite Hnil in Hc'. by apply not_elem_of_nil in Hc'. }
      specialize (Hrej q Hq). unfold is_rejected in Hrej.
      rewrite Hqs in Hq'. unfold is_pending in Hq'.
      destruct (promises w !! q) as [[|[|]]|]; try done; destruct Hq'; done.
  - (* a request of the call is answered, others are in flight *)
    assert (filter (λ q, is_pending w3 q = true) H = filter (λ q, q ≠ p) qs)
      as Hfil.
    { unfold qs. rewrite list_filter_filter. apply filter_ext_in.
      intros q Hq. unfold is_pending at 1. rewrite Hlook by done.
      destruct (decide (q = p)) as [->|Hqp].
      - simpl. split; [done|]. by intros [? _].
      - unfold is_pending. split; [done|]. by intros [_ ?]. }
    right. split_and!.
    + rewrite Hr3, Hrb, Hra. done.
    + apply Forall_forall. intros q Hq. unfold is_rejected.
      rewrite Hlook by done. destruct (decide (q = p)); [done|].
      apply (Hrej q Hq).
    + by rewrite Hfil.
    + rewrite Hfil, Ht3, Htb. unfold unload_task.
      rewrite tasks_of_snoc_own, Hta. done.
Qed.

Lemma unload_inv_step c H ev w :
  unload_inv c H w → unload_inv c H (step ev w).
Proof.
  intros HJ. destruct ev as [b|x| | |now|p r|i]; simpl.
  - by apply unload_inv_call.
  - by apply unload_inv_call.
  - by apply unload_inv_call.
  - by eapply unload_inv_agree.
  - by eapply unload_inv_agree.
  - by apply unload_inv_settle.
  - by apply unload_inv_body_read.
Qed.

Lemma unload_inv_run c H evs w :
  unload_inv c H w → unload_inv c H (run evs w).
Proof.
  revert w. induction evs as [|ev evs IH]; intros w HJ; [done|].
  simpl. by apply IH, unload_inv_step.
Qed.

(** Right after the page exit the call has either returned, when there was
    nothing to clean up, or waits for all the requests it sent. *)
Lemma unload_inv_start w :
  Inv w →
  unload_inv (calls w)
    (seq (length (promises w)) (length (sessionsRef (store w))))
    (step PageExit w).
Proof.
  intros HI. simpl. rewrite call_handleBeforeUnload. cbv zeta.
  pose proof (cleanup_requests_pending (promises w) (sessionsRef (store w)))
    as Hpend.
  assert (calls w ∉ resolved w) as Hnr.
  { intros Hin. pose proof (inv_resolved w HI) as Hres.
    rewrite Forall_forall in Hres. apply Hres in Hin. lia. }
  assert (tasks_of (calls w) (tasks w) = []) as Hnone.
  { unfold tasks_of. pose proof (inv_tasks w HI) as Hts.
    induction Hts as [|t ts [Ht _] _ IH]; [done|].
    rewrite filter_cons, decide_False by lia. done. }
  destruct (sessionsRef (store w)) as [|x ids] eqn:Eids.
  - split_and!; simpl; [lia|by constructor|]. left. split.
    + apply elem_of_app. right. by left.
    + left. by constructor.
  - set (H := seq _ _) in *.
    set (w' := park _ _).
    assert (∀ p, p ∈ H → ∃ req, promises w' !! p = Some (Pending req)) as Hp.
    { by apply Forall_forall. }
    assert (filter (λ p, is_pending w' p = true) H = H) as Hfil.
    { by apply filter_pending_all. }
    split_and!; simpl; [lia| |right; split_and!].
    + apply Forall_forall. intros p Hpin. destruct (Hp p Hpin) as [req Hreq].
      by eapply lookup_lt_Some.
    + done.
    + apply Forall_forall. intros p Hpin. destruct (Hp p Hpin) as [req Hreq].
      unfold is_rejected. by rewrite Hreq.
    + rewrite Hfil. done.
    + rewrite Hfil. unfold unload_task, w', park. simpl.
      by rewrite tasks_of_snoc_own, Hnone.
Qed.

(** ** The properties of the specification *)

(** C1 (as amended).  [close(X)] sends the delete request and leaves both
    representations as they were while the request is in flight; the session
    leaves the ordered list and the set when the request's promise fulfils,
    whatever the response, and stays in both when the promise rejects. *)
Theorem close_removes_on_fulfilment (evs : list Event) (X : JsVal) :
  let w := run evs init in
  let p := length (promises w) in
  let w1 := step (ClickClose X) w in
  (registry (store w1) = registry (store w) ∧
   promises w1 !! p = Some (Pending (Cleanup (js_to_string X)))) ∧
  (∀ response,
     let st := store (step (Settle p (Fulfilled response)) w1) in
     sessions st = filter (λ s, id s ≠ X) (sessions (store w)) ∧
     sessionsRef st = Set_delete X (sessionsRef (store w)) ∧
     (X ∉ session_ids st) ∧ (X ∉ sessionsRef st)) ∧
  (∀ err,
     registry (store (step (Settle p (Rejected err)) w1)) = registry (store w)).
Proof.
  intros w p w1. pose proof (run_Inv evs) as HI. fold w in HI.
  split_and!.
  - unfold w1. simpl. by rewrite call_cleanupSession.
  - unfold w1. simpl. rewrite call_cleanupSession. simpl.
    by rewrite list_lookup_middle.
  - intros response. unfold w1, p. rewrite close_settled by done. simpl.
    split_and!; [done..| |apply Set_delete_not_elem].
    apply filter_id_not_elem.
  - intros err. unfold w1, p. by rewrite close_settled.
Qed.


(** C3.  After any sequence of events (launches, closes, page exits,
    settlements in any order), an id occurs in the ordered session list if
    and only if it is a member of the set read by the page-exit cleanup. *)
Theorem dual_representation_consistent (evs : list Event) (X : JsVal) :
  X ∈ session_ids (store (run evs init)) ↔
  X ∈ sessionsRef (store (run evs init)).
Proof. apply (inv_consistent _ (run_Inv evs)). Qed.

(** C4 (as amended).  [closeAll()] reads the set once, sends one delete
    request per id of that snapshot (the set holds no id twice), all of them
    before it waits for any, and then waits for all of them at once.  Its own
    promise resolves as soon as every request has been answered or the first
    one is rejected, whichever comes first; after a rejection it does not
    wait for the requests still in flight. *)
Theorem closeAll_dispatch_and_resolution (evs evs' : list Event) :
  let w := run evs init in
  let ids := sessionsRef (store w) in
  let c := calls w in
  let H := seq (length (promises w)) (length ids) in
  let w1 := step PageExit w in
  let w2 := run evs' w1 in
  NoDup ids ∧
  promises w1 = promises w ++ cleanup_requests ids ∧
  tasks w1 =
    tasks w ++
      (if decide (ids = []) then []
       else [(c, OnAll H handleBeforeUnload_settled)]) ∧
  (c ∈ resolved w1 ↔ ids = []) ∧
  (c ∈ resolved w2 ↔
     Forall (λ p, is_fulfilled w2 p = true) H ∨
     Exists (λ p, is_rejected w2 p = true) H).
Proof.
  intros w ids c H w1 w2. pose proof (run_Inv evs) as HI. fold w in HI.
  assert (c ∉ resolved w) as Hnr.
  { intros Hin. pose proof (inv_resolved w HI) as Hres.
    rewrite Forall_forall in Hres. apply Hres in Hin. unfold c in Hin. lia. }
  assert (w1 = call handleBeforeUnload w) as Hw1 by done.
  rewrite call_handleBeforeUnload in Hw1. cbv zeta in Hw1. fold ids in Hw1.
  split_and!.
  - apply (inv_nodup w HI).
  - rewrite Hw1. by destruct ids.
  - rewrite Hw1. destruct ids; simpl; [by rewrite app_nil_r|done].
  - rewrite Hw1. destruct ids as [|x ids']; simpl.
    + split; [done|]. intros _. apply elem_of_app. right. by left.
    + split; [|done]. intros Hin. by destruct Hnr.
  - pose proof (unload_inv_run c H evs' w1 (unload_inv_start w HI))
      as (_ & _ & [[Hr Hdone]|(Hr & Hrej & Hne & _)]).
    + by split.
    + fold w2 in Hr, Hrej, Hne. split; [done|]. intros [Hf|He]; exfalso.
      * destruct (filter (λ p, is_pending w2 p = true) H) as [|q qs] eqn:E;
          [done|].
        assert (q ∈ filter (λ p, is_pending w2 p = true) H) as Hq.
        { rewrite E. by left. }
        apply list_elem_of_filter in Hq as [Hq HqH].
        rewrite Forall_forall in Hf. specialize (Hf q HqH).
        unfold is_pending in Hq. unfold is_fulfilled in Hf.
        by destruct (promises w2 !! q) as [[|[|]]|].
      * apply Exists_exists in He as (q & HqH & Hq).
        rewrite Forall_forall in Hrej. specialize (Hrej q HqH). congruence.
Qed.



(** C7.  Removing an id from both representations twice gives the same store
    as removing it once, and removal touches neither the error shown nor the
    console; a second [close(id)] after the first has completed leaves the
    whole store as the first left it. *)
Theorem remove_idempotent (evs : list Event) (sessionId : JsVal) (st : Store)
    (response1 response2 : Response) :
  registry_remove sessionId (registry_remove sessionId st) =
    registry_remove sessionId st ∧
  error (registry_remove sessionId st) = error st ∧
  console (registry_remove sessionId st) = console st ∧
  let w := run evs init in
  let w1 := run [ClickClose sessionId;
                 Settle (length (promises w)) (Fulfilled response1)] w in
  let w2 := run [ClickClose sessionId;
                 Settle (length (promises w1)) (Fulfilled response2)] w1 in
  store w1 = registry_remove sessionId (store w) ∧ store w2 = store w1.
Proof.
  split_and!; [apply registry_remove_twice|done..|].
  intros w w1 w2. pose proof (run_Inv evs) as HI. fold w in HI.
  assert (w1 = step (Settle (length (promises w)) (Fulfilled response1))
                 (step (ClickClose sessionId) w)) as Hw1 by done.
  assert (Inv w1) as HI1 by (rewrite Hw1; by do 2 apply step_Inv).
  assert (w2 = step (Settle (length (promises w1)) (Fulfilled response2))
                 (step (ClickClose sessionId) w1)) as -> by done.
  rewrite close_settled by done. simpl.
  rewrite Hw1, close_settled by done. simpl.
  split; [done|]. apply registry_remove_twice.
Qed.

(** C8.  When the delete request of a [close(id)] fails, the failure is
    written to the console and nothing else happens: the error shown, the
    loading flag and the launching indicator are as before, no further
    request is sent and the call has returned.  A response with any status
    does not touch the error shown either, and sends no further request. *)
Theorem cleanup_failure_not_surfaced (evs : list Event) (sessionId : JsVal)
    (err : JsError) (response : Response) :
  let w := run evs init in
  let p := length (promises w) in
  let w1 := step (ClickClose sessionId) w in
  (let w2 := step (Settle p (Rejected err)) w1 in
   error (store w2) = error (store w) ∧
   loading (store w2) = loading (store w) ∧
   launchingBrowser (store w2) = launchingBrowser (store w) ∧
   console (store w2) = console (store w) ++ [("Cleanup error:", err)] ∧
   promises w2 = promises w ++ [Done (Rejected err)] ∧
   tasks w2 = tasks w ∧
   resolved w2 = resolved w ++ [calls w]) ∧
  (let w2 := step (Settle p (Fulfilled response)) w1 in
   error (store w2) = error (store w) ∧
   console (store w2) = console (store w) ∧
   promises w2 = promises w ++ [Done (Fulfilled response)] ∧
   tasks w2 = tasks w).
Proof.
  intros w p w1. pose proof (run_Inv evs) as HI. fold w in HI.
  unfold w1, p. by rewrite !close_settled.
Qed.

(** C9.  The page-exit cleanup leaves both representations as they were:
    neither its call nor any settlement, in any order and with any outcome,
    of the requests it sent changes the ordered list or the set.  An event
    changes them only if it resumes a [cleanupSession] whose request was
    answered or a [launchBrowser] that reads the body of a success response. *)
Theorem closeAll_leaves_registry (evs : list Event)
    (rs : list (nat * Settled Response)) (ev : Event) :
  let w := run evs init in
  let n := length (promises w) in
  let w1 := step PageExit w in
  let w2 := run ((λ jr, Settle (n + jr.1) jr.2) <$> rs) w1 in
  registry (store w1) = registry (store w) ∧
  registry (store w2) = registry (store w) ∧
  (registry (store (step ev w)) = registry (store w) ∨
   (∃ p response c sessionId,
      ev = Settle p (Fulfilled response) ∧
      (c, OnFetch p (cleanupSession_settled sessionId)) ∈ tasks w) ∨
   (∃ i c response browserType,
      ev = BodyRead i ∧
      tasks w !! i = Some (c, OnJson response (launchBrowser_data browserType)))).
Proof.
  intros w n w1 w2. pose proof (run_Inv evs) as HI. fold w in HI.
  assert (registry (store w1) = registry (store w)) as H1.
  { unfold w1. simpl. rewrite call_handleBeforeUnload. simpl.
    by destruct (sessionsRef (store w)). }
  split_and!; [done| |].
  - unfold w2. rewrite run_settle_unload_frame; [done|].
    assert (Forall (old_or_unload n) (tasks w)) as Hold.
    { eapply Forall_impl; [apply (inv_tasks w HI)|]. intros t [_ ?]. by left. }
    unfold w1. simpl. rewrite call_handleBeforeUnload. simpl.
    destruct (sessionsRef (store w)); simpl; [done|].
    apply Forall_app. split; [done|]. apply Forall_singleton.
    right. by eexists.
  - destruct ev as [b|x| | |now|p r|i]; simpl.
    + left. by rewrite call_launchBrowser.
    + left. by rewrite call_cleanupSession.
    + by left.
    + by left.
    + by left.
    + unfold settle. destruct (promises w !! p) as [[req|]|]; try by left.
      edestruct (foldl_notify_registry p r (tasks w)) as [Hr|Hr].
      { eapply Forall_impl; [apply (inv_tasks w HI)|]. by intros t [_ ?]. }
      * left. rewrite Hr. done.
      * destruct Hr as (response & c & x & -> & Hin). right. left. eauto 6.
    + unfold body_read.
      destruct (tasks w !! i) as [[c [| |response k]]|] eqn:E; try by left.
      pose proof (inv_tasks w HI) as Hts. rewrite Forall_lookup in Hts.
      destruct (Hts _ _ E) as [_ Hk]. simpl in Hk. inversion Hk; subst.
      * left. by rewrite exec_launchBrowser_errorData.
      * right. right. eauto 6.
Qed.

End Proofs.

Section Lifecycle.
Context {engine : Engine}.

(** ** Requests are sent by actions only *)

Lemma body_read_promises i w : Inv w → promises (body_read i w) = promises w.
Proof.
  intros HI. unfold body_read.
  destruct (tasks w !! i) as [[c [| |response k]]|] eqn:E; try done.
  pose proof (inv_tasks w HI) as Hts. rewrite Forall_lookup in Hts.
  destruct (Hts _ _ E) as [_ Hk]. simpl in Hk. inversion Hk; subst.
  - by rewrite exec_launchBrowser_errorData.
  - by rewrite exec_launchBrowser_data.
Qed.

Lemma settle_promises p r w :
  Inv w →
  promises (settle p r w) = promises w ∨
  promises (settle p r w) = <[p := Done r]> (promises w).
Proof.
  intros HI. unfold settle.
  destruct (promises w !! p) as [[req|]|] eqn:E; try by left.
  right. set (w0 := mkWorld _ _ _ [] _ _).
  destruct (foldl_notify_Inv p r (tasks w) w0) as (_ & Hp & _); [| |done].
  - destruct HI. by constructor.
  - simpl. rewrite length_insert. by destruct HI.
Qed.

Lemma step_new_promises (evs : list Event) (ev : Event) :
  let w := run evs init in
  drop (length (promises w)) (promises (step ev w)) =
    match ev with
    | ClickLaunch browserType => [Pending (Launch browserType)]
    | ClickClose sessionId => [Pending (Cleanup (js_to_string sessionId))]
    | PageExit => cleanup_requests (sessionsRef (store w))
    | _ => []
    end ∧
  length (promises (step ev w)) =
    length (promises w) +
    match ev with
    | ClickLaunch _ | ClickClose _ => 1
    | PageExit => length (sessionsRef (store w))
    | _ => 0
    end.
Proof.
  intros w. pose proof (run_Inv evs) as HI. fold w in HI.
  destruct ev as [b|x| | |now|p r|i]; simpl.
  - rewrite call_launchBrowser. simpl.
    rewrite drop_app_length, length_app. done.
  - rewrite call_cleanupSession. simpl.
    rewrite drop_app_length, length_app. done.
  - rewrite call_handleBeforeUnload. simpl.
    assert (∀ w', promises w' =
        promises w ++ cleanup_requests (sessionsRef (store w)) →
      drop (length (promises w)) (promises w') =
        cleanup_requests (sessionsRef (store w)) ∧
      length (promises w') =
        length (promises w) + length (sessionsRef (store w))) as Hgen.
    { intros w' ->.
      by rewrite drop_app_length, length_app, length_cleanup_requests. }
    apply Hgen. by destruct (sessionsRef (store w)).
  - rewrite drop_all. split; [done|lia].
  - rewrite drop_all. split; [done|lia].
  - destruct (settle_promises p r w HI) as [-> | ->].
    + rewrite drop_all. split; [done|lia].
    + rewrite length_insert, drop_ge by (rewrite length_insert; lia).
      split; [done|lia].
  - rewrite body_read_promises by done. rewrite drop_all. split; [done|lia].
Qed.

(** ** Every way a launch can end *)


(** ** The clock, overlapping calls *)

Ltac world_simpl :=
  unfold with_tasks, resolve, with_store, park;
  cbn [store clock promises tasks calls resolved].

Lemma settle_at st clk ps l1 l2 c k m res p r req :
  ps !! p = Some (Pending req) →
  Forall (λ t, ¬ waits_on p t) l1 →
  Forall (λ t, ¬ waits_on p t) l2 →
  settle p r (mkWorld st clk ps (l1 ++ (c, OnFetch p k) :: l2) m res) =
  let w' := exec c (k r) (mkWorld st clk (<[p := Done r]> ps) l1 m res) in
  with_tasks (tasks w' ++ l2) w'.
Proof.
  intros Hp H1 H2. unfold settle. cbn [promises tasks store clock calls resolved].
  rewrite Hp, foldl_app, (foldl_notify_park _ _ l1) by done.
  cbn [foldl]. unfold with_tasks at 1. cbn [promises tasks store clock calls resolved].
  rewrite app_nil_l. unfold notify at 2. rewrite decide_True by done.
  by rewrite foldl_notify_park.
Qed.


(** X4.  Launches may overlap: the indicator shows the kind clicked last,
    and whichever launch ends first clears the indicator and the loading
    flag although the request of the other is still in flight. *)
Theorem overlapping_launches (evs : list Event) (a b : string) (err : JsError)
    (second_first : bool) :
  let w := run evs init in
  let p := length (promises w) in
  let w2 := run [ClickLaunch a; ClickLaunch b] w in
  let ended := if second_first then 1 else 0 in
  let other := if second_first then 0 else 1 in
  let w3 := step (Settle (p + ended) (Rejected err)) w2 in
  (launchingBrowser (store w2) = Some b ∧ loading (store w2) = true) ∧
  launchingBrowser (store w3) = None ∧ loading (store w3) = false ∧
  promises w3 !! (p + other) =
    Some (Pending (Launch (if second_first then a else b))) ∧
  calls w + ended ∈ resolved w3 ∧
  (calls w + other ∉ resolved w3) ∧
  length (tasks w3) = S (length (tasks w)).
Proof.
  intros w p w2 ended other w3. pose proof (run_Inv evs) as HI. fold w in HI.
  assert (Forall (λ t, ¬ waits_on p t) (tasks w)) as Hp0.
  { by apply Inv_not_waiting. }
  assert (Forall (λ t, ¬ waits_on (p + 1) t) (tasks w)) as Hp1.
  { apply Inv_not_waiting; [done|]. unfold p. lia. }
  assert (∀ x, x ∈ resolved w → x < calls w) as Hres.
  { apply Forall_forall, (inv_resolved w HI). }
  assert (w2 = mkWorld
    (setError "" (setLaunchingBrowser (Some b) (setLoading true
      (setError "" (setLaunchingBrowser (Some a) (setLoading true (store w)))))))
    (clock w)
    ((promises w ++ [Pending (Launch a)]) ++ [Pending (Launch b)])
    (tasks w ++ (calls w, OnFetch p (launchBrowser_response a)) ::
       [(S (calls w), OnFetch (p + 1) (launchBrowser_response b))])
    (S (S (calls w))) (resolved w)) as Hw2.
  { unfold w2. cbn [run foldl step]. rewrite !call_launchBrowser.
    cbn [promises tasks store clock calls resolved].
    rewrite length_app, <- (app_assoc (tasks w)). done. }
  split; [by rewrite Hw2|].
  unfold w3, ended, other. cbn [step]. rewrite Hw2.
  destruct second_first.
  - assert (∀ (x y : nat * Waiting) l, l ++ x :: [y] = (l ++ [x]) ++ [y])
      as Hassoc by (intros; by rewrite <- app_assoc).
    rewrite Hassoc. erewrite settle_at.
    + rewrite exec_launchBrowser_response. cbn. rewrite app_nil_r.
      rewrite Nat.add_0_r, length_app.
      split_and!; try done.
      * rewrite list_lookup_insert_ne by (unfold p; lia).
        rewrite lookup_app_l by (rewrite length_app; simpl; lia).
        by rewrite list_lookup_middle.
      * apply elem_of_app. right. rewrite Nat.add_1_r. by left.
      * intros [Hin|Heq%list_elem_of_singleton]%elem_of_app; [|lia].
        apply Hres in Hin. lia.
      * simpl. lia.
    + rewrite list_lookup_middle; [done|]. rewrite length_app. simpl.
      unfold p. lia.
    + apply Forall_app. split; [done|]. apply Forall_singleton.
      unfold waits_on. simpl. unfold p. lia.
    + by constructor.
  - rewrite Nat.add_0_r. erewrite settle_at.
    + rewrite exec_launchBrowser_response. cbn.
      rewrite length_app.
      split_and!; try done.
      * rewrite list_lookup_insert_ne by (unfold p; lia).
        rewrite list_lookup_middle; [done|]. rewrite length_app. simpl.
        unfold p. lia.
      * apply elem_of_app. right. rewrite Nat.add_0_r. by left.
      * intros [Hin|Heq%list_elem_of_singleton]%elem_of_app; [|lia].
        apply Hres in Hin. lia.
      * simpl. lia.
    + rewrite lookup_app_l by (rewrite length_app; simpl; unfold p; lia).
      by rewrite list_lookup_middle.
    + done.
    + apply Forall_singleton. unfold waits_on. simpl. unfold p. lia.
Qed.

(** ** The error shown after a failed launch *)





(** ** Two closes of one session *)

(** X6.  When the same session is closed twice before either delete request
    is answered, two requests are sent; once both are answered, in either
    order, the store is what a single close leaves, both calls have returned
    and nothing was logged. *)
Theorem double_close_in_flight (evs : list Event) (sessionId : JsVal)
    (response1 response2 : Response) (second_first : bool) :
  let w := run evs init in
  let p := length (promises w) in
  let w2 := run [ClickClose sessionId; ClickClose sessionId] w in
  let w4 :=
    if second_first
    then run [Settle (p + 1) (Fulfilled response2);
              Settle p (Fulfilled response1)] w2
    else run [Settle p (Fulfilled response1);
              Settle (p + 1) (Fulfilled response2)] w2 in
  promises w2 =
    promises w ++ [Pending (Cleanup (js_to_string sessionId));
                   Pending (Cleanup (js_to_string sessionId))] ∧
  store w2 = store w ∧
  store w4 = registry_remove sessionId (store w) ∧
  tasks w4 = tasks w ∧
  calls w ∈ resolved w4 ∧ S (calls w) ∈ resolved w4.
Proof.
  intros w p w2 w4. pose proof (run_Inv evs) as HI. fold w in HI.
  assert (Forall (λ t, ¬ waits_on p t) (tasks w)) as Hp0.
  { by apply Inv_not_waiting. }
  assert (Forall (λ t, ¬ waits_on (p + 1) t) (tasks w)) as Hp1.
  { apply Inv_not_waiting; [done|]. unfold p. lia. }
  assert (w2 = mkWorld (store w) (clock w)
    ((promises w ++ [Pending (Cleanup (js_to_string sessionId))]) ++
       [Pending (Cleanup (js_to_string sessionId))])
    (tasks w ++ (calls w, OnFetch p (cleanupSession_settled sessionId)) ::
       [(S (calls w), OnFetch (p + 1) (cleanupSession_settled sessionId))])
    (S (S (calls w))) (resolved w)) as Hw2.
  { unfold w2. cbn [run foldl step]. rewrite !call_cleanupSession.
    cbn [promises tasks store clock calls resolved].
    rewrite length_app, <- (app_assoc (tasks w)). done. }
  assert (∀ (x y : nat * Waiting) l, l ++ x :: [y] = (l ++ [x]) ++ [y])
    as Hassoc by (intros; by rewrite <- app_assoc).
  assert (∀ (x y : PromiseState) l, (l ++ [x]) ++ [y] = l ++ [x; y])
    as Hassoc' by (intros; by rewrite <- app_assoc).
  assert (length (promises w ++ [Pending (Cleanup (js_to_string sessionId))])
          = p + 1) as Hlen by (rewrite length_app; done).
  assert (store w4 = registry_remove sessionId (store w) ∧
          tasks w4 = tasks w ∧
          resolved w4 =
            resolved w ++ (if second_first then [S (calls w); calls w]
                           else [calls w; S (calls w)])) as (Hs & Ht & Hr).
  { unfold w4. rewrite Hw2. destruct second_first; cbn [run foldl step].
    - rewrite Hassoc. erewrite settle_at; cycle 1.
      { rewrite <- Hlen. by apply list_lookup_middle. }
      { apply Forall_app. split; [done|]. apply Forall_singleton.
        unfold waits_on. simpl. lia. }
      { by constructor. }
      rewrite exec_cleanupSession_settled. world_simpl.
      rewrite app_nil_r. erewrite settle_at; cycle 1.
      { rewrite list_lookup_insert_ne by lia.
        rewrite lookup_app_l by (rewrite Hlen; unfold p; lia).
        by apply list_lookup_middle. }
      { done. }
      { by constructor. }
      rewrite exec_cleanupSession_settled. world_simpl.
      by rewrite registry_remove_twice, app_nil_r, <- app_assoc.
    - erewrite settle_at; cycle 1.
      { rewrite lookup_app_l by (rewrite Hlen; unfold p; lia).
        by apply list_lookup_middle. }
      { done. }
      { apply Forall_singleton. unfold waits_on. simpl. lia. }
      rewrite exec_cleanupSession_settled. world_simpl.
      erewrite settle_at; cycle 1.
      { rewrite list_lookup_insert_ne by lia.
        rewrite <- Hlen. by apply list_lookup_middle. }
      { done. }
      { by constructor. }
      rewrite exec_cleanupSession_settled. world_simpl.
      by rewrite registry_remove_twice, app_nil_r, <- app_assoc. }
  split_and!; [by rewrite Hw2, Hassoc'|by rewrite Hw2|done|done|..].
  - rewrite Hr. apply elem_of_app. right.
    destruct second_first; [right|]; by left.
  - rewrite Hr. apply elem_of_app. right.
    destruct second_first; [|right]; by left.
Qed.

(** ** How the registry changes *)

Lemma registry_remove_change sessionId st :
  registry_change (registry st) (registry (registry_remove sessionId st)).
Proof. destruct st. apply change_remove. Qed.

Lemma launch_succeeded_change newSession st :
  registry_change (registry st) (registry (launch_succeeded newSession st)).
Proof. destruct st. apply change_insert. Qed.

Lemma notify_registry_change p r w t n :
  known_task n t.2 →
  registry (store (notify p r w t)) = registry (store w) ∨
  registry_change (registry (store w)) (registry (store (notify p r w t))).
Proof.
  intros Hk. destruct (notify_registry p r w t n Hk)
    as [Hr|(response & c & x & -> & ->)]; [by left|].
  right. unfold notify. rewrite decide_True by done.
  rewrite exec_cleanupSession_settled. apply registry_remove_change.
Qed.

Lemma foldl_notify_registry_change p r ts w n :
  Forall (λ t, known_task n t.2) ts →
  rtc registry_change (registry (store w))
    (registry (store (foldl (notify p r) w ts))).
Proof.
  revert w. induction ts as [|t ts IH]; intros w Hts; [done|].
  apply Forall_cons in Hts as [Ht Hts]. simpl.
  etrans; [|by apply IH].
  destruct (notify_registry_change p r w t n Ht) as [-> |Hc]; [done|].
  by apply rtc_once.
Qed.

Lemma step_registry_change ev w :
  Inv w →
  rtc registry_change (registry (store w)) (registry (store (step ev w))).
Proof.
  intros HI. destruct ev as [b|x| | |now|p r|i]; simpl.
  - by rewrite call_launchBrowser.
  - by rewrite call_cleanupSession.
  - rewrite call_handleBeforeUnload. simpl.
    by destruct (sessionsRef (store w)).
  - done.
  - done.
  - unfold settle. destruct (promises w !! p) as [[req|]|]; try done.
    eapply (foldl_notify_registry_change p r (tasks w)
              (mkWorld _ _ _ [] _ _)).
    eapply Forall_impl; [apply (inv_tasks w HI)|]. by intros t [_ ?].
  - unfold body_read.
    destruct (tasks w !! i) as [[c [| |response k]]|] eqn:E; try done.
    pose proof (inv_tasks w HI) as Hts. rewrite Forall_lookup in Hts.
    destruct (Hts _ _ E) as [_ Hk]. simpl in Hk. inversion Hk; subst.
    + by rewrite exec_launchBrowser_errorData.
    + rewrite exec_launchBrowser_data. simpl.
      destruct (data_session _ _ _); [|done].
      apply rtc_once, launch_succeeded_change.
Qed.

(** X7.  Whatever happens, the registry changes only in two ways: every
    session with one id leaves the ordered list and that id leaves the set,
    or one session is appended to the list and its id is added to the set.
    Each event changes the registry by a sequence of such changes, so the
    two representations are never updated one without the other. *)
Theorem registry_changes_in_pairs (evs : list Event) (ev : Event) :
  let w := run evs init in
  rtc registry_change (registry (store w)) (registry (store (step ev w))).
Proof. apply step_registry_change, run_Inv. Qed.

Lemma first_occurrences_elem x l : x ∈ first_occurrences l ↔ x ∈ l.
Proof.
  induction l as [|y l IH]; [done|]. simpl.
  rewrite !elem_of_cons, list_elem_of_filter, IH.
  destruct (decide (x = y)); tauto.
Qed.

Lemma first_occurrences_snoc l x :
  first_occurrences (l ++ [x]) = Set_add x (first_occurrences l).
Proof.
  induction l as [|y l IH]; [done|]. simpl. rewrite IH. unfold Set_add.
  destruct (decide (x ∈ first_occurrences l)) as [Hx|Hx].
  - rewrite decide_True; [done|]. destruct (decide (x = y)) as [->|Hxy].
    + by left.
    + right. by apply list_elem_of_filter.
  - rewrite filter_app, filter_cons, filter_nil.
    destruct (decide (x = y)) as [->|Hxy].
    + rewrite decide_False by (intros H; by apply H).
      rewrite app_nil_r, decide_True; [done|by left].
    + rewrite decide_True by done. rewrite decide_False; [done|].
      intros [?|[_ ?]%list_elem_of_filter]%elem_of_cons; done.
Qed.

Lemma filter_ne_comm (x y : JsVal) (l : list JsVal) :
  filter (λ z, z ≠ x) (filter (λ z, z ≠ y) l) =
  filter (λ z, z ≠ y) (filter (λ z, z ≠ x) l).
Proof.
  rewrite !list_filter_filter. apply list_filter_iff. intros z. tauto.
Qed.

Lemma first_occurrences_filter X l :
  first_occurrences (filter (λ y, y ≠ X) l) =
  Set_delete X (first_occurrences l).
Proof.
  unfold Set_delete. induction l as [|y l IH]; [done|].
  rewrite filter_cons. simpl. destruct (decide (y ≠ X)) as [Hy|Hy].
  - simpl. rewrite IH, filter_cons, decide_True by done.
    by rewrite filter_ne_comm.
  - apply dec_stable in Hy. subst y. rewrite IH, filter_cons.
    rewrite decide_False by (intros H; by apply H).
    rewrite list_filter_filter. apply list_filter_iff. intros z. tauto.
Qed.

Lemma fmap_id_filter X (l : list Session) :
  id <$> filter (λ s, id s ≠ X) l = filter (λ y, y ≠ X) (id <$> l).
Proof.
  induction l as [|s l IH]; [done|].
  rewrite fmap_cons, !filter_cons. destruct (decide (id s ≠ X)); [|done].
  by rewrite fmap_cons, IH.
Qed.

Lemma registry_change_first_occurrences r r' :
  registry_change r r' →
  r.2 = first_occurrences (id <$> r.1) →
  r'.2 = first_occurrences (id <$> r'.1).
Proof.
  intros [X l s|x l s]; simpl; intros ->.
  - by rewrite fmap_id_filter, first_occurrences_filter.
  - rewrite fmap_app. change (id <$> [x]) with [id x].
    by rewrite first_occurrences_snoc.
Qed.

Lemma rtc_first_occurrences r r' :
  rtc registry_change r r' →
  r.2 = first_occurrences (id <$> r.1) →
  r'.2 = first_occurrences (id <$> r'.1).
Proof.
  induction 1 as [|r1 r2 r3 H12 _ IH]; [done|].
  intros H1. by eapply IH, registry_change_first_occurrences.
Qed.

Lemma run_first_occurrences evs :
  sessionsRef (store (run evs init)) =
  first_occurrences (session_ids (store (run evs init))).
Proof.
  induction evs as [|ev evs IH] using rev_ind; [done|].
  rewrite run_snoc.
  exact (rtc_first_occurrences _ _
           (step_registry_change ev _ (run_Inv evs)) IH).
Qed.

Lemma first_occurrences_length l : length (first_occurrences l) ≤ length l.
Proof.
  induction l as [|x l IH]; [done|]. simpl.
  pose proof (length_filter (λ y, y ≠ x) (first_occurrences l)). lia.
Qed.

(** X8.  The set always holds the distinct ids of the ordered list, in the
    order in which they first occur there.  So the page exit sends its
    delete requests in the order of the session cards, one per distinct id,
    and never more requests than there are cards. *)
Theorem set_follows_list_order (evs : list Event) :
  let w := run evs init in
  sessionsRef (store w) = first_occurrences (session_ids (store w)) ∧
  drop (length (promises w)) (promises (step PageExit w)) =
    cleanup_requests (first_occurrences (session_ids (store w))) ∧
  length (sessionsRef (store w)) ≤ length (sessions (store w)).
Proof.
  intros w.
  pose proof (run_first_occurrences evs) as Hfo. fold w in Hfo.
  split_and!; [done| |].
  - destruct (step_new_promises evs PageExit) as [Hd _].
    fold w in Hd. by rewrite Hd, Hfo.
  - rewrite Hfo. etrans; [apply first_occurrences_length|].
    unfold session_ids. by rewrite length_fmap.
Qed.

(** ** No call is left waiting *)

Lemma waits_for_pending_promises w w' t :
  (∀ p, waits_on p t → in_flight w p → in_flight w' p) →
  waits_for_pending w t → waits_for_pending w' t.
Proof.
  destruct t as [c [q k|qs k|response k]]; unfold waits_for_pending, waits_on;
    simpl; intros Hw; [auto| |done].
  intros [Hne Hqs]. split; [done|]. rewrite Forall_forall in Hqs |- *. auto.
Qed.

Lemma Forall_waits_same w w' ts :
  promises w' = promises w →
  Forall (waits_for_pending w) ts → Forall (waits_for_pending w') ts.
Proof.
  intros Hp Hts. eapply Forall_impl; [done|].
  intros t. apply waits_for_pending_promises.
  intros p _. unfold in_flight. by rewrite Hp.
Qed.

Lemma Forall_waits_prefix w w' ts :
  promises w `prefix_of` promises w' →
  Forall (waits_for_pending w) ts → Forall (waits_for_pending w') ts.
Proof.
  intros Hp Hts. eapply Forall_impl; [done|].
  intros t. apply waits_for_pending_promises.
  intros p _ [req Hreq]. exists req. by eapply prefix_lookup_Some.
Qed.

Lemma live_resolve n c f w : live n w → live (S n) (resolve c (with_store f w)).
Proof.
  intros [Hw Hn]. split; [done|]. simpl. rewrite length_app. simpl. lia.
Qed.

Lemma live_park n t w :
  waits_for_pending w t → live n w → live (S n) (park t w).
Proof.
  intros Ht [Hw Hn]. split; simpl.
  - apply Forall_app. split; [done|]. by apply Forall_singleton.
  - rewrite length_app. simpl. lia.
Qed.

Lemma notify_live p r req w0 w t n :
  promises w0 !! p = Some (Pending req) →
  promises w = <[p := Done r]> (promises w0) →
  known_task (length (promises w0)) t.2 →
  waits_for_pending w0 t →
  live n w →
  live (S n) (notify p r w t) ∧ promises (notify p r w t) = promises w.
Proof.
  intros Hp Hw Hk Ht Hl. destruct t as [c t]. simpl in Hk.
  assert (∀ q, q ≠ p → in_flight w0 q → in_flight w q) as Hother.
  { intros q Hq [req' Hreq]. exists req'.
    by rewrite Hw, list_lookup_insert_ne. }
  inversion Hk as [q x Hq|q b Hq|resp|resp b|qs Hne Hqs]; subst t;
    unfold notify.
  - destruct (decide (q = p)) as [->|Hqp].
    + rewrite exec_cleanupSession_settled. split; [|done]. by apply live_resolve.
    + split; [|done]. apply live_park; [|done]. by apply Hother.
  - destruct (decide (q = p)) as [->|Hqp].
    + rewrite exec_launchBrowser_response. destruct r as [response|err].
      * split; [|done]. by apply live_park.
      * split; [|done]. by apply live_resolve.
    + split; [|done]. apply live_park; [|done]. by apply Hother.
  - split; [|done]. by apply live_park.
  - split; [|done]. by apply live_park.
  - destruct Ht as [_ Hin]. simpl in Hin. rewrite Forall_forall in Hin.
    assert (∀ r', live (S n) (exec c (handleBeforeUnload_settled r') w) ∧
      promises (exec c (handleBeforeUnload_settled r') w) = promises w) as Hex.
    { intros r'. rewrite exec_handleBeforeUnload_settled. split; [|done].
      by apply live_resolve. }
    destruct (decide (p ∈ qs)) as [Hpq|Hpq].
    + destruct r as [response|err]; [|exact (Hex (Rejected err))].
      destruct (filter (λ q, q ≠ p) qs) as [|q qs'] eqn:E;
        [exact (Hex (Fulfilled ()))|].
      split; [|done]. apply live_park; [|done]. split; [done|]. simpl.
      rewrite <- E. apply Forall_forall.
      intros q' [Hq' Hq'in]%list_elem_of_filter. auto.
    + split; [|done]. apply live_park; [|done]. split; [done|]. simpl.
      apply Forall_forall. intros q' Hq'. apply Hother; [|auto].
      intros ->. done.
Qed.

Lemma foldl_notify_live p r req w0 ts w n :
  promises w0 !! p = Some (Pending req) →
  promises w = <[p := Done r]> (promises w0) →
  Forall (λ t, known_task (length (promises w0)) t.2) ts →
  Forall (waits_for_pending w0) ts →
  live n w →
  live (n + length ts) (foldl (notify p r) w ts).
Proof.
  intros Hp. revert w n. induction ts as [|t ts IH]; intros w n Hw Hk Ht Hl.
  - simpl. by rewrite Nat.add_0_r.
  - apply Forall_cons in Hk as [Hk Hks]. apply Forall_cons in Ht as [Ht Hts].
    destruct (notify_live p r req w0 w t n Hp Hw Hk Ht Hl) as [Hl' Hp'].
    simpl. replace (n + S (length ts)) with (S n + length ts) by lia.
    apply IH; try done. by rewrite Hp'.
Qed.

Lemma step_live ev w :
  Inv w → live (calls w) w → live (calls (step ev w)) (step ev w).
Proof.
  intros HI [Hw Hn].
  destruct ev as [b|x| | |now|p r|i]; simpl.
  - rewrite call_launchBrowser. split; simpl.
    + apply Forall_app. split.
      * eapply Forall_waits_prefix; [|done]. by apply prefix_app_r.
      * apply Forall_singleton. eexists. simpl. by apply list_lookup_middle.
    + rewrite length_app. simpl. lia.
  - rewrite call_cleanupSession. split; simpl.
    + apply Forall_app. split.
      * eapply Forall_waits_prefix; [|done]. by apply prefix_app_r.
      * apply Forall_singleton. eexists. simpl. by apply list_lookup_middle.
    + rewrite length_app. simpl. lia.
  - rewrite call_handleBeforeUnload. cbv zeta.
    pose proof (cleanup_requests_pending (promises w) (sessionsRef (store w)))
      as Hpend.
    destruct (sessionsRef (store w)) as [|x ids] eqn:E.
    + split; simpl.
      * eapply Forall_waits_prefix; [|done]. by apply prefix_app_r.
      * rewrite length_app. simpl. lia.
    + split; simpl.
      * apply Forall_app. split.
        -- eapply Forall_waits_prefix; [|done]. by apply prefix_app_r.
        -- apply Forall_singleton. split; [done|]. exact Hpend.
      * rewrite length_app. simpl. lia.
  - done.
  - done.
  - unfold settle. destruct (promises w !! p) as [[req|]|] eqn:E; try done.
    set (w0 := mkWorld _ _ _ [] _ _).
    destruct (foldl_notify_Inv p r (tasks w) w0) as (_ & _ & Hc).
    { destruct HI. by constructor. }
    { simpl. rewrite length_insert. by destruct HI. }
    rewrite Hc. simpl. rewrite <- Hn.
    eapply foldl_notify_live; try done.
    eapply Forall_impl; [apply (inv_tasks w HI)|]. by intros t [_ ?].
  - unfold body_read.
    destruct (tasks w !! i) as [[c [| |response k]]|] eqn:E; try done.
    pose proof (inv_tasks w HI) as Hts. rewrite Forall_lookup in Hts.
    destruct (Hts _ _ E) as [_ Hk]. simpl in Hk.
    assert (live (calls w - 1) (with_tasks (delete i (tasks w)) w)) as Hl.
    { split; simpl; [by apply Forall_delete|].
      rewrite length_delete by by eexists.
      apply lookup_lt_Some in E. lia. }
    assert (0 < calls w) as Hpos.
    { apply lookup_lt_Some in E. lia. }
    inversion Hk; subst.
    + rewrite exec_launchBrowser_errorData.
      replace (calls _) with (S (calls w - 1)) by (simpl; lia).
      by apply live_resolve.
    + rewrite exec_launchBrowser_data.
      replace (calls _) with (S (calls w - 1)) by (simpl; lia).
      by apply live_resolve.
Qed.

(** X16.  No call is left waiting for something that has already arrived:
    after any sequence of events, a call that has not returned waits for the
    body of a response or for requests that are all still in flight, and
    every call made so far has either returned or is waiting. *)
Theorem no_call_hangs (evs : list Event) :
  let w := run evs init in
  Forall (waits_for_pending w) (tasks w) ∧
  length (resolved w) + length (tasks w) = calls w.
Proof.
  induction evs as [|ev evs IH] using rev_ind.
  - split; [by constructor|done].
  - cbv zeta. rewrite run_snoc. apply step_live; [apply run_Inv|done].
Qed.

(** ** A close whose request is answered later *)

Lemma filter_singleton_split {A} (P : A → Prop) `{!∀ x, Decision (P x)}
    (l : list A) (x : A) :
  filter P l = [x] →
  ∃ l1 l2, l = l1 ++ x :: l2 ∧
           Forall (λ y, ¬ P y) l1 ∧ Forall (λ y, ¬ P y) l2.
Proof.
  induction l as [|y l IH]; [done|]. rewrite filter_cons.
  destruct (decide (P y)) as [Hy|Hy].
  - intros [= -> Hl]. exists [], l. split_and!; [done|done|].
    apply Forall_forall. intros z Hz HP.
    assert (z ∈ filter P l) as Hin by by apply list_elem_of_filter.
    rewrite Hl in Hin. by apply not_elem_of_nil in Hin.
  - intros (l1 & l2 & -> & H1 & H2)%IH. exists (y :: l1), l2.
    split_and!; [done| |done]. by constructor.
Qed.

Lemma filter_delete_other {A} (P : A → Prop) `{!∀ x, Decision (P x)}
    (l : list A) (i : nat) (x : A) :
  l !! i = Some x → ¬ P x → filter P (delete i l) = filter P l.
Proof.
  revert i. induction l as [|y l IH]; intros [|i] Hi Hx; try done.
  - simpl in Hi. injection Hi as ->. simpl. by rewrite filter_cons_False.
  - simpl in Hi. change (delete (S i) (y :: l)) with (y :: delete i l).
    rewrite !filter_cons. by rewrite (IH i).
Qed.

Lemma filter_none {A} (P : A → Prop) `{!∀ x, Decision (P x)} (l : list A) :
  Forall (λ y, ¬ P y) l → filter P l = [].
Proof.
  induction 1 as [|y l Hy Hl IH]; [done|]. by rewrite filter_cons_False.
Qed.

Lemma filter_snoc_other {A} (P : A → Prop) `{!∀ x, Decision (P x)}
    (l : list A) (x : A) :
  ¬ P x → filter P (l ++ [x]) = filter P l.
Proof.
  intros Hx. rewrite filter_app, filter_cons_False by done.
  by rewrite filter_nil, app_nil_r.
Qed.

(** Resuming or parking a task that does not wait for [p] leaves the tasks
    that wait for [p] as they are. *)
Lemma notify_waiters p q r w t n :
  known_task n t.2 → ¬ waits_on p t →
  filter (waits_on p) (tasks (notify q r w t)) = filter (waits_on p) (tasks w).
Proof.
  destruct t as [c t]. simpl. intros Hk Hw.
  assert (filter (waits_on p) (tasks (park (c, t) w)) =
          filter (waits_on p) (tasks w)) as Hpark.
  { simpl. by apply filter_snoc_other. }
  destruct Hk as [q' x Hq|q' b Hq|resp|resp b|qs Hne Hqs]; unfold notify.
  - destruct (decide (q' = q)); [|done]. by rewrite exec_cleanupSession_settled.
  - destruct (decide (q' = q)); [|done]. rewrite exec_launchBrowser_response.
    destruct r as [response|err]; [|done]. simpl.
    apply filter_snoc_other. unfold waits_on. simpl. tauto.
  - done.
  - done.
  - destruct (decide (q ∈ qs)); [|done].
    destruct r as [response|err];
      [|by rewrite exec_handleBeforeUnload_settled].
    destruct (filter (λ q0, q0 ≠ q) qs) as [|q0 qs'] eqn:E;
      [by rewrite exec_handleBeforeUnload_settled|].
    simpl. apply filter_snoc_other. unfold waits_on. simpl. rewrite <- E.
    intros [_ Hin]%list_elem_of_filter. by apply Hw.
Qed.

Lemma foldl_notify_waiters p q r ts w n :
  q ≠ p →
  Forall (λ t, known_task n t.2) ts →
  Forall (λ t, waits_on p t → ∃ c k, t = (c, OnFetch p k)) ts →
  filter (waits_on p) (tasks (foldl (notify q r) w ts)) =
  filter (waits_on p) (tasks w) ++ filter (waits_on p) ts.
Proof.
  intros Hq. revert w. induction ts as [|t ts IH]; intros w Hk Hf.
  - simpl. by rewrite filter_nil, app_nil_r.
  - apply Forall_cons in Hk as [Hkt Hk]. apply Forall_cons in Hf as [Hft Hf].
    simpl. rewrite IH by done. rewrite (filter_cons _ t).
    destruct (decide (waits_on p t)) as [Hw|Hw].
    + destruct (Hft Hw) as (c & k & ->). unfold notify.
      rewrite decide_False by done. simpl.
      rewrite filter_app, filter_cons_True by done.
      by rewrite filter_nil, <- app_assoc.
    + by rewrite (notify_waiters _ _ _ _ _ n).
Qed.

Lemma grows_refl w : grows w w.
Proof. by split_and!. Qed.

Lemma run_grows evs w : grows w (run evs w).
Proof.
  revert w. induction evs as [|ev evs IH]; intros w; [apply grows_refl|].
  simpl. eapply grows_trans; [apply step_grows|apply IH].
Qed.

Lemma grows_pending w w' p :
  grows w w' → is_pending w' p = true → is_pending w p = true.
Proof.
  intros (_ & _ & _ & Hdone). unfold is_pending.
  destruct (promises w !! p) as [[req|r]|] eqn:E; try done.
  by rewrite (Hdone _ _ E).
Qed.

Lemma awaited_by_unique p c k w t :
  awaited_by p c k w → t ∈ tasks w → waits_on p t → t = (c, OnFetch p k).
Proof.
  unfold awaited_by. intros Ha Hin Hw.
  assert (t ∈ filter (waits_on p) (tasks w)) as Hf
    by by apply list_elem_of_filter.
  rewrite Ha in Hf. by apply list_elem_of_singleton in Hf.
Qed.

(** While the request is in flight, the call that sent it keeps waiting for
    it, whatever else happens. *)
Lemma step_awaited p c k ev w :
  Inv w → p < length (promises w) →
  is_pending (step ev w) p = true →
  awaited_by p c k w → awaited_by p c k (step ev w).
Proof.
  intros HI Hp Hpend Ha. unfold awaited_by in *.
  destruct ev as [b|x| | |now|q r|i]; simpl in *.
  - rewrite call_launchBrowser. simpl. rewrite filter_snoc_other; [done|].
    unfold waits_on. simpl. lia.
  - rewrite call_cleanupSession. simpl. rewrite filter_snoc_other; [done|].
    unfold waits_on. simpl. lia.
  - rewrite call_handleBeforeUnload. simpl.
    destruct (sessionsRef (store w)) as [|y ys]; [done|]. simpl.
    rewrite filter_snoc_other; [done|]. unfold waits_on. simpl.
    rewrite elem_of_cons, elem_of_seq. lia.
  - done.
  - done.
  - unfold settle in *. destruct (promises w !! q) as [[req|]|] eqn:E; try done.
    destruct (decide (q = p)) as [->|Hq].
    + exfalso. revert Hpend. unfold is_pending.
      destruct (foldl_notify_grows p r (tasks w)
        (mkWorld (store w) (clock w) (<[p:=Done r]> (promises w)) []
           (calls w) (resolved w))) as (_ & _ & _ & Hdone).
      rewrite (Hdone p r); [done|]. simpl.
      rewrite list_lookup_insert. by rewrite decide_True.
    + rewrite (foldl_notify_waiters p q r (tasks w) _ (length (promises w)));
        [done|done| |].
      * eapply Forall_impl; [apply (inv_tasks w HI)|]. by intros t [_ ?].
      * apply Forall_forall. intros t Hin Hw.
        exists c, k. by eapply awaited_by_unique.
  - unfold body_read in *.
    destruct (tasks w !! i) as [[c' [| |response k']]|] eqn:E; try done.
    pose proof (inv_tasks w HI) as Hts. rewrite Forall_lookup in Hts.
    destruct (Hts _ _ E) as [_ Hk]. simpl in Hk.
    assert (filter (waits_on p) (delete i (tasks w)) = [(c, OnFetch p k)])
      as Hd.
    { rewrite (filter_delete_other _ _ _ _ E); [done|].
      unfold waits_on. simpl. tauto. }
    inversion Hk; subst.
    + by rewrite exec_launchBrowser_errorData.
    + by rewrite exec_launchBrowser_data.
Qed.

Lemma run_awaited p c k evs w :
  Inv w → p < length (promises w) →
  is_pending (run evs w) p = true →
  awaited_by p c k w → awaited_by p c k (run evs w).
Proof.
  revert w. induction evs as [|ev evs IH]; intros w HI Hp Hpend Ha; [done|].
  simpl in *. apply IH; [by apply step_Inv| |done|].
  - destruct (step_grows ev w) as (_ & Hlen & _). lia.
  - apply step_awaited; [done..| |done].
    eapply grows_pending; [apply run_grows|done].
Qed.

(** The settlement of the request of a [cleanupSession] call that waits
    for it. *)
Lemma settle_awaited p c sessionId r w :
  p < length (promises w) → is_pending w p = true →
  awaited_by p c (cleanupSession_settled sessionId) w →
  store (settle p r w) =
    match r with
    | Fulfilled _ => registry_remove sessionId (store w)
    | Rejected err => console_error "Cleanup error:" err (store w)
    end ∧
  promises (settle p r w) = <[p := Done r]> (promises w) ∧
  resolved (settle p r w) = resolved w ++ [c].
Proof.
  intros Hp Hpend Ha.
  destruct (filter_singleton_split _ _ _ Ha) as (l1 & l2 & Hts & H1 & H2).
  assert (∃ req, promises w !! p = Some (Pending req)) as [req Hreq].
  { revert Hpend. unfold is_pending.
    destruct (promises w !! p) as [[req|]|] eqn:E; try done; [by eexists|].
    apply lookup_ge_None in E. lia. }
  destruct w as [st clk ps ts m res]. simpl in *. subst ts.
  rewrite (settle_at _ _ _ _ _ _ _ _ _ _ _ req) by done.
  rewrite exec_cleanupSession_settled. simpl. by destruct r.
Qed.

(** ** What the events other than a body leave of the registry *)

Lemma registry_shrinks_refl st : registry_shrinks st st.
Proof. by split. Qed.

Lemma registry_shrinks_trans st1 st2 st3 :
  registry_shrinks st1 st2 → registry_shrinks st2 st3 →
  registry_shrinks st1 st3.
Proof. intros [? ?] [? ?]. split; auto. Qed.

Lemma registry_shrinks_eq st st' :
  registry st' = registry st → registry_shrinks st st'.
Proof. unfold registry. intros [= Hs Hr]. split; intros ?; congruence. Qed.

Lemma registry_remove_shrinks sessionId st :
  registry_shrinks st (registry_remove sessionId st).
Proof.
  split; simpl.
  - by intros s [_ ?]%list_elem_of_filter.
  - by intros x [_ ?]%list_elem_of_filter.
Qed.

Lemma notify_shrinks p r w t n :
  known_task n t.2 → registry_shrinks (store w) (store (notify p r w t)).
Proof.
  intros Hk.
  destruct (notify_registry p r w t n Hk) as [Hr|(response & c & x & -> & ->)].
  - by apply registry_shrinks_eq.
  - unfold notify. rewrite decide_True by done.
    rewrite exec_cleanupSession_settled. apply registry_remove_shrinks.
Qed.

Lemma foldl_notify_shrinks p r ts w n :
  Forall (λ t, known_task n t.2) ts →
  registry_shrinks (store w) (store (foldl (notify p r) w ts)).
Proof.
  revert w. induction ts as [|t ts IH]; intros w Hts;
    [apply registry_shrinks_refl|].
  apply Forall_cons in Hts as [Ht Hts]. simpl.
  eapply registry_shrinks_trans; [by eapply notify_shrinks|by apply IH].
Qed.

(** Only the arrival of a body adds to the registry. *)
Lemma step_shrinks ev w :
  Inv w → (∀ i, ev ≠ BodyRead i) →
  registry_shrinks (store w) (store (step ev w)).
Proof.
  intros HI Hev. destruct ev as [b|x| | |now|p r|i]; simpl.
  - rewrite call_launchBrowser. by apply registry_shrinks_eq.
  - rewrite call_cleanupSession. by apply registry_shrinks_eq.
  - rewrite call_handleBeforeUnload. apply registry_shrinks_eq. simpl.
    by destruct (sessionsRef (store w)).
  - by apply registry_shrinks_eq.
  - apply registry_shrinks_refl.
  - unfold settle. destruct (promises w !! p) as [[req|]|];
      try apply registry_shrinks_refl.
    eapply (foldl_notify_shrinks p r (tasks w) (mkWorld _ _ _ [] _ _)).
    eapply Forall_impl; [apply (inv_tasks w HI)|]. by intros t [_ ?].
  - by destruct (Hev i).
Qed.

Lemma run_shrinks evs w :
  Inv w → (∀ i, BodyRead i ∉ evs) →
  registry_shrinks (store w) (store (run evs w)).
Proof.
  revert w. induction evs as [|ev evs IH]; intros w HI Hevs;
    [apply registry_shrinks_refl|].
  simpl. apply (registry_shrinks_trans _ (store (step ev w))).
  - apply step_shrinks; [done|]. intros i ->. apply (Hevs i). by left.
  - apply IH; [by apply step_Inv|]. intros i Hi. apply (Hevs i). by right.
Qed.

(** C10.  [close(X)] for an id that the registry does not hold sends one
    delete request for [X] and changes neither representation.  Whatever
    happens while the request is in flight, its settlement sends nothing
    and the call returns; a rejection leaves the registry as it is then, a
    fulfilment removes [X] from it.  So both representations are left
    unchanged when [X] is still absent at that moment, which it is unless
    the body of a launch has arrived in between. *)
Theorem close_absent_id (evs evs' : list Event) (X : JsVal)
    (r : Settled Response) :
  let w := run evs init in
  let p := length (promises w) in
  let w1 := step (ClickClose X) w in
  let w2 := run evs' w1 in
  let w3 := step (Settle p r) w2 in
  X ∉ sessionsRef (store w) →
  is_pending w2 p = true →
  promises w1 = promises w ++ [Pending (Cleanup (js_to_string X))] ∧
  registry (store w1) = registry (store w) ∧
  registry (store w3) =
    match r with
    | Fulfilled _ => registry (registry_remove X (store w2))
    | Rejected _ => registry (store w2)
    end ∧
  (X ∉ sessionsRef (store w2) → registry (store w3) = registry (store w2)) ∧
  ((∀ i, BodyRead i ∉ evs') → X ∉ sessionsRef (store w2)) ∧
  promises w3 = <[p := Done r]> (promises w2) ∧
  calls w ∈ resolved w3.
Proof.
  intros w p w1 w2 w3 HX Hpend.
  pose proof (run_Inv evs) as HI. fold w in HI.
  assert (Inv w1) as HI1 by by apply step_Inv.
  assert (Inv w2) as HI2 by by apply run_Inv_from.
  assert (w1 = mkWorld (store w) (clock w)
            (promises w ++ [Pending (Cleanup (js_to_string X))])
            (tasks w ++ [(calls w, OnFetch p (cleanupSession_settled X))])
            (S (calls w)) (resolved w)) as Hw1.
  { unfold w1. simpl. by rewrite call_cleanupSession. }
  assert (p < length (promises w1)) as Hp1.
  { rewrite Hw1. simpl. rewrite length_app. simpl. unfold p. lia. }
  assert (awaited_by p (calls w) (cleanupSession_settled X) w1) as Ha1.
  { unfold awaited_by. rewrite Hw1. simpl.
    rewrite filter_app, filter_cons_True by done. rewrite filter_nil.
    rewrite filter_none; [done|]. by apply Inv_not_waiting. }
  assert (awaited_by p (calls w) (cleanupSession_settled X) w2) as Ha2
    by by apply run_awaited.
  assert (p < length (promises w2)) as Hp2.
  { destruct (run_grows evs' w1) as (_ & Hlen & _). fold w2 in Hlen. lia. }
  destruct (settle_awaited p (calls w) X r w2 Hp2 Hpend Ha2)
    as (Hst & Hpr & Hres).
  assert (registry (store w3) =
          match r with
          | Fulfilled _ => registry (registry_remove X (store w2))
          | Rejected _ => registry (store w2)
          end) as Hreg.
  { unfold w3. simpl. rewrite Hst. by destruct r. }
  split_and!.
  - by rewrite Hw1.
  - by rewrite Hw1.
  - done.
  - intros HX2. rewrite Hreg. destruct r as [response|err]; [|done].
    rewrite registry_remove_absent; [done..|]. by destruct HI2.
  - intros Hevs HX2. apply HX.
    destruct (run_shrinks evs' w1 HI1 Hevs) as [_ Hsub]. fold w2 in Hsub.
    apply Hsub in HX2. by rewrite Hw1 in HX2.
  - done.
  - unfold w3. simpl. rewrite Hres. apply elem_of_app. right. by left.
Qed.

(** ** The loading indicator *)

Lemma indicator_keeps K f st :
  launchingBrowser (f st) = launchingBrowser st →
  loading (f st) = loading st →
  indicator_ok K st → indicator_ok K (f st).
Proof. unfold indicator_ok. by intros -> ->. Qed.

Lemma notify_indicator K p r w t n :
  known_task n t.2 →
  indicator_ok K (store w) → indicator_ok K (store (notify p r w t)).
Proof.
  destruct t as [c t]. simpl. intros Hk HK.
  destruct Hk as [q x Hq|q b Hq|resp|resp b|qs Hne Hqs]; unfold notify.
  - destruct (decide (q = p)); [|done].
    rewrite exec_cleanupSession_settled. simpl.
    destruct r; by apply indicator_keeps.
  - destruct (decide (q = p)); [|done].
    rewrite exec_launchBrowser_response. by destruct r as [response|err].
  - done.
  - done.
  - destruct (decide (p ∈ qs)); [|done].
    assert (∀ r', indicator_ok K
              (store (exec c (handleBeforeUnload_settled r') w))) as Hex.
    { intros r'. rewrite exec_handleBeforeUnload_settled. simpl.
      destruct r'; [done|]. by apply indicator_keeps. }
    destruct r as [response|err]; [|exact (Hex (Rejected err))].
    destruct (filter (λ q, q ≠ p) qs) as [|q qs'];
      [exact (Hex (Fulfilled ()))|done].
Qed.

Lemma foldl_notify_indicator K p r ts w n :
  Forall (λ t, known_task n t.2) ts →
  indicator_ok K (store w) →
  indicator_ok K (store (foldl (notify p r) w ts)).
Proof.
  revert w. induction ts as [|t ts IH]; intros w Hts HK; [done|].
  apply Forall_cons in Hts as [Ht Hts]. simpl.
  apply IH; [done|]. by eapply notify_indicator.
Qed.

Lemma step_indicator K ev w :
  (∀ b, ev = ClickLaunch b → K b) →
  Inv w → indicator_ok K (store w) → indicator_ok K (store (step ev w)).
Proof.
  intros Hev HI HK. destruct ev as [b|x| | |now|p r|i]; simpl.
  - rewrite call_launchBrowser. simpl. split; [done|]. by apply Hev.
  - by rewrite call_cleanupSession.
  - rewrite call_handleBeforeUnload. simpl.
    by destruct (sessionsRef (store w)).
  - by apply indicator_keeps.
  - done.
  - unfold settle. destruct (promises w !! p) as [[req|]|]; try done.
    eapply (foldl_notify_indicator K p r (tasks w) (mkWorld _ _ _ [] _ _));
      [|done].
    eapply Forall_impl; [apply (inv_tasks w HI)|]. by intros t [_ ?].
  - unfold body_read.
    destruct (tasks w !! i) as [[c [| |response k]]|] eqn:E; try done.
    pose proof (inv_tasks w HI) as Hts. rewrite Forall_lookup in Hts.
    destruct (Hts _ _ E) as [_ Hk]. simpl in Hk. inversion Hk; subst.
    + by rewrite exec_launchBrowser_errorData.
    + rewrite exec_launchBrowser_data. simpl.
      by destruct (data_session _ _ _).
Qed.

Lemma run_indicator K evs w :
  (∀ b, ClickLaunch b ∈ evs → K b) →
  Inv w → indicator_ok K (store w) → indicator_ok K (store (run evs w)).
Proof.
  revert w. induction evs as [|ev evs IH]; intros w HK HI Hw; [done|].
  simpl. apply IH.
  - intros b Hb. apply HK. by right.
  - by apply step_Inv.
  - apply step_indicator; [|done..]. intros b ->. apply HK. by left.
Qed.

(** X19.  The loading flag and the launching indicator are always set and
    cleared together: after any sequence of events the loading indicator is
    on screen exactly when [launchingBrowser] holds a kind, so it is never
    rendered with [null] for a name, and the kind it names is that of a
    launch that was clicked. *)
Theorem loading_indicator_names_a_kind (evs : list Event) :
  let st := store (run evs init) in
  match shows_LoadingIndicator st with
  | Some browserName =>
      ∃ browserType,
        browserName = Some browserType ∧ ClickLaunch browserType ∈ evs
  | None => launchingBrowser st = None
  end.
Proof.
  intros st.
  pose proof (run_indicator (λ b, ClickLaunch b ∈ evs) evs init) as HK.
  fold st in HK. unfold indicator_ok, shows_LoadingIndicator in *.
  specialize (HK (λ b Hb, Hb) Inv_init eq_refl).
  destruct (launchingBrowser st) as [b|].
  - destruct HK as [-> Hb]. by exists b.
  - by rewrite HK.
Qed.

End Lifecycle.

Section PageProofs.
Context {engine : Engine}.

(** ** The kind of a session *)

Lemma kinds_inv_store K f w :
  (∀ st, Forall (λ s, K (browser s)) (sessions st) →
         Forall (λ s, K (browser s)) (sessions (f st))) →
  kinds_inv K w → kinds_inv K (with_store f w).
Proof. intros Hf [Hs Ht]. split; [by apply Hf|done]. Qed.

Lemma kinds_inv_resolve K c w : kinds_inv K w → kinds_inv K (resolve c w).
Proof. by intros [Hs Ht]. Qed.

Lemma kinds_inv_park K c t w :
  task_kinds K t → kinds_inv K w → kinds_inv K (park (c, t) w).
Proof.
  intros Hk [Hs Ht]. split; [done|]. simpl.
  apply Forall_app. split; [done|]. by apply Forall_singleton.
Qed.

Lemma kinds_filter K sessionId l :
  Forall (λ s, K (browser s)) l →
  Forall (λ s, K (browser s)) (filter (λ s, id s ≠ sessionId) l).
Proof.
  rewrite !Forall_forall. intros Hl s [_ Hs]%list_elem_of_filter. auto.
Qed.

Lemma notify_kinds K p r w t :
  task_kinds K t.2 → kinds_inv K w → kinds_inv K (notify p r w t).
Proof.
  destruct t as [c t]. simpl. intros Hk HK.
  assert (kinds_inv K (park (c, t) w)) as Hpark by by apply kinds_inv_park.
  destruct Hk as [q x|q b Hb|resp|resp b Hb|qs]; unfold notify.
  - destruct (decide (q = p)); [|done].
    rewrite exec_cleanupSession_settled. apply kinds_inv_resolve.
    apply kinds_inv_store; [|done]. intros st Hst.
    destruct r; [|done]. by apply kinds_filter.
  - destruct (decide (q = p)); [|done].
    rewrite exec_launchBrowser_response. destruct r as [response|err].
    + apply kinds_inv_park; [|done].
      destruct (negb (ok response)); by constructor.
    + apply kinds_inv_resolve. by apply kinds_inv_store.
  - done.
  - done.
  - destruct (decide (p ∈ qs)); [|done].
    assert (∀ r', kinds_inv K (exec c (handleBeforeUnload_settled r') w))
      as Hex.
    { intros r'. rewrite exec_handleBeforeUnload_settled.
      apply kinds_inv_resolve. apply kinds_inv_store; [|done].
      intros st Hst. by destruct r'. }
    destruct r as [response|err]; [|exact (Hex (Rejected err))].
    destruct (filter (λ q, q ≠ p) qs) as [|q qs'];
      [exact (Hex (Fulfilled ()))|].
    apply kinds_inv_park; [constructor|done].
Qed.

Lemma foldl_notify_kinds K p r ts w :
  Forall (λ t, task_kinds K t.2) ts → kinds_inv K w →
  kinds_inv K (foldl (notify p r) w ts).
Proof.
  revert w. induction ts as [|t ts IH]; intros w Hts HK; [done|].
  apply Forall_cons in Hts as [Ht Hts]. simpl.
  by apply IH, notify_kinds.
Qed.

Lemma step_kinds K ev w :
  (∀ b, ev = ClickLaunch b → K b) → kinds_inv K w → kinds_inv K (step ev w).
Proof.
  intros HK [Hs Ht]. destruct ev as [b|x| | |now|p r|i]; simpl.
  - rewrite call_launchBrowser. split; [done|]. simpl.
    apply Forall_app. split; [done|]. apply Forall_singleton.
    constructor. by apply HK.
  - rewrite call_cleanupSession. split; [done|]. simpl.
    apply Forall_app. split; [done|]. apply Forall_singleton. constructor.
  - rewrite call_handleBeforeUnload. simpl.
    destruct (sessionsRef (store w)); [done|]. split; [done|]. simpl.
    apply Forall_app. split; [done|]. apply Forall_singleton. constructor.
  - done.
  - done.
  - unfold settle. destruct (promises w !! p) as [[req|]|]; try done.
    apply foldl_notify_kinds; [done|]. split; [done|]. by constructor.
  - unfold body_read.
    destruct (tasks w !! i) as [[c [| |response k]]|] eqn:E; try done.
    rewrite Forall_lookup in Ht. pose proof (Ht _ _ E) as Hk. simpl in Hk.
    assert (kinds_inv K (with_tasks (delete i (tasks w)) w)) as HK'.
    { split; [done|]. simpl. apply Forall_delete. by apply Forall_lookup. }
    inversion Hk as [| | |resp b Hb|]; subst.
    + rewrite exec_launchBrowser_errorData. apply kinds_inv_resolve.
      by apply kinds_inv_store.
    + rewrite exec_launchBrowser_data. apply kinds_inv_resolve.
      apply kinds_inv_store; [|done]. intros st Hst.
      destruct (data_session b (clock _) (json response)) as [s|err] eqn:Es;
        [|done].
      simpl. apply Forall_app. split; [done|]. apply Forall_singleton.
      assert (browser s = b) as ->; [|done].
      destruct (json response) as [[fields| |[]]|]; simpl in Es;
        by simplify_eq.
Qed.

Lemma run_kinds K evs w :
  (∀ b, ClickLaunch b ∈ evs → K b) → kinds_inv K w → kinds_inv K (run evs w).
Proof.
  revert w. induction evs as [|ev evs IH]; intros w HK Hw; [done|].
  simpl. apply IH.
  - intros b Hb. apply HK. by right.
  - apply step_kinds; [|done]. intros b ->. apply HK. by left.
Qed.

Lemma run_session_kinds (evs : list Event) (s : Session) :
  s ∈ sessions (store (run evs init)) → ClickLaunch (browser s) ∈ evs.
Proof.
  intros Hs.
  destruct (run_kinds (λ b, ClickLaunch b ∈ evs) evs init) as [HK _].
  - done.
  - split; by constructor.
  - rewrite Forall_forall in HK. by apply HK.
Qed.

(** X9.  The kind recorded in a session is the kind of a launch that was
    clicked: whatever the interleaving of launches, closes and responses,
    every session in the list carries the [browserType] of some earlier
    call of [launchBrowser]. *)
Theorem session_kind_was_launched (evs : list Event) (s : Session) :
  s ∈ sessions (store (run evs init)) → ClickLaunch (browser s) ∈ evs.
Proof. apply run_session_kinds. Qed.

(** ** The launch buttons *)

Lemma click_option_cases (i : nat) (w : World) :
  click_option i w =
    match i with
    | 0 =>
        if decide (launchingBrowser (store w) = Some "firefox") then w
        else step (ClickLaunch "firefox") w
    | 1 =>
        if decide (launchingBrowser (store w) = Some "tor") then w
        else step (ClickLaunch "tor") w
    | _ => w
    end.
Proof.
  destruct i as [|[|[|i]]]; try done; unfold click_option, isLaunching;
    simpl; case_bool_decide; case_decide; done.
Qed.

(** X10.  The Firefox and the Tor button start a launch of their kind unless
    that kind is the one shown as launching, in which case the click does
    nothing; the Brave button never does anything.  No other kind can be
    launched from the page. *)
Theorem launch_buttons (i : nat) (w : World) :
  click_option i w =
    match i with
    | 0 =>
        if decide (launchingBrowser (store w) = Some "firefox") then w
        else step (ClickLaunch "firefox") w
    | 1 =>
        if decide (launchingBrowser (store w) = Some "tor") then w
        else step (ClickLaunch "tor") w
    | _ => w
    end.
Proof. apply click_option_cases. Qed.

Lemma page_step_refines (u : PageEvent) (pg : Page) :
  ∃ evs,
    world (page_step u pg) = run evs (world pg) ∧
    listeners (page_step u pg) = listeners pg ∧
    ∀ b, ClickLaunch b ∈ evs → b = "firefox" ∨ b = "tor".
Proof.
  destruct u as [i|i| |type|ev]; simpl.
  - rewrite click_option_cases. destruct i as [|[|i]].
    + destruct (decide _); [exists []|exists [ClickLaunch "firefox"]];
        (split_and!; [done..|]); intros b Hb.
      * by apply not_elem_of_nil in Hb.
      * apply list_elem_of_singleton in Hb. injection Hb as ->. by left.
    + destruct (decide _); [exists []|exists [ClickLaunch "tor"]];
        (split_and!; [done..|]); intros b Hb.
      * by apply not_elem_of_nil in Hb.
      * apply list_elem_of_singleton in Hb. injection Hb as ->. by right.
    + exists []. split_and!; [done..|]. intros b Hb.
      by apply not_elem_of_nil in Hb.
  - unfold click_close. destruct (sessions (store (world pg)) !! i) as [s|].
    + exists [ClickClose (id s)]. split_and!; [done..|]. intros b Hb.
      by apply list_elem_of_singleton in Hb.
    + exists []. split_and!; [done..|]. intros b Hb.
      by apply not_elem_of_nil in Hb.
  - exists [Dismiss]. split_and!; [done..|]. intros b Hb.
    by apply list_elem_of_singleton in Hb.
  - unfold dispatchEvent. destruct (decide _).
    + exists [PageExit]. split_and!; [done..|]. intros b Hb.
      by apply list_elem_of_singleton in Hb.
    + exists []. split_and!; [done..|]. intros b Hb.
      by apply not_elem_of_nil in Hb.
  - destruct (is_network ev) eqn:E.
    + exists [ev]. split_and!; [done..|]. intros b Hb.
      apply list_elem_of_singleton in Hb. by subst ev.
    + exists []. split_and!; [done..|]. intros b Hb.
      by apply not_elem_of_nil in Hb.
Qed.

Lemma page_run_refines (us : list PageEvent) :
  ∃ evs,
    world (page_run us page_init) = run evs init ∧
    listeners (page_run us page_init) = ["beforeunload"; "unload"] ∧
    ∀ b, ClickLaunch b ∈ evs → b = "firefox" ∨ b = "tor".
Proof.
  induction us as [|u us (evs & Hw & Hl & Hk)] using rev_ind.
  - exists []. split_and!; [done..|]. intros b Hb.
    by apply not_elem_of_nil in Hb.
  - unfold page_run. rewrite foldl_app. cbn [foldl].
    fold (page_run us page_init).
    destruct (page_step_refines u (page_run us page_init))
      as (evs' & Hw' & Hl' & Hk').
    exists (evs ++ evs'). split_and!.
    + rewrite Hw', Hw. unfold run. by rewrite foldl_app.
    + by rewrite Hl'.
    + intros b [?|?]%elem_of_app; auto.
Qed.

(** X11.  On the page, every session card belongs to a Firefox or a Tor
    session, so [getBrowserConfig] finds its own entry of [configs] for it:
    the fallback title is never used. *)
Theorem page_sessions_have_configs (us : list PageEvent) (s : Session) :
  s ∈ sessions (store (world (page_run us page_init))) →
  (browser s = "firefox" ∧
   getBrowserConfig (browser s) =
     Own (Config.mk Globe "Firefox" "from-orange-500 to-red-500" "orange")) ∨
  (browser s = "tor" ∧
   getBrowserConfig (browser s) =
     Own (Config.mk Eye "Tor Browser" "from-purple-600 to-indigo-600"
            "purple")).
Proof.
  destruct (page_run_refines us) as (evs & -> & _ & Hk). intros Hs.
  apply run_session_kinds, Hk in Hs as [-> | ->]; [left|right]; done.
Qed.

(** ** The render of the cards *)















(** ** The page-exit effect *)

Lemma call_handleBeforeUnload_effect w :
  store (call handleBeforeUnload w) = store w ∧
  promises (call handleBeforeUnload w) =
    promises w ++ cleanup_requests (sessionsRef (store w)).
Proof.
  rewrite call_handleBeforeUnload. by destruct (sessionsRef (store w)).
Qed.

Lemma dispatch_registered type pg :
  type ∈ listeners pg →
  dispatchEvent type pg =
  mkPage (call handleBeforeUnload (world pg)) (listeners pg).
Proof. intros Hin. unfold dispatchEvent. by rewrite decide_True. Qed.

(** X12.  When the tab is closed while [App] is mounted, the window fires
    [beforeunload] and then [unload]; the handler is registered for both and
    the first run removes nothing from the set, so every delete request is
    sent twice.  Neither representation changes. *)
Theorem tab_close_sends_requests_twice (us : list PageEvent) :
  let pg := page_run us page_init in
  let w := world pg in
  let requests := cleanup_requests (sessionsRef (store w)) in
  let pg2 := page_run [WindowEvent "beforeunload"; WindowEvent "unload"] pg in
  stays_mounted us page_init = true →
  promises (world pg2) = promises w ++ requests ++ requests ∧
  registry (store (world pg2)) = registry (store w) ∧
  listeners pg2 = listeners pg.
Proof.
  intros pg w requests pg2 _.
  destruct (page_run_refines us) as (evs & _ & Hl & _). fold pg in Hl.
  unfold pg2, page_run. cbn [foldl page_step].
  rewrite (dispatch_registered "beforeunload") by (rewrite Hl; by left).
  rewrite (dispatch_registered "unload")
    by (cbn [listeners]; rewrite Hl; right; by left).
  cbn [world listeners]. fold w.
  destruct (call_handleBeforeUnload_effect w) as [Hs1 Hp1].
  destruct (call_handleBeforeUnload_effect (call handleBeforeUnload w))
    as [Hs2 Hp2].
  rewrite Hp2, Hs2, Hp1, Hs1, <- app_assoc. done.
Qed.

(** X13.  When [App] unmounts, the cleanup of the effect takes the handler
    off both event types and runs it once: one delete request per id of the
    set is sent, and no window event triggers the handler afterwards. *)
Theorem unmount_cleans_up_once (us : list PageEvent) (type : string) :
  let pg := page_run us page_init in
  let w := world pg in
  let pg' := effect_cleanup pg in
  listeners pg' = [] ∧
  promises (world pg') =
    promises w ++ cleanup_requests (sessionsRef (store w)) ∧
  registry (store (world pg')) = registry (store w) ∧
  dispatchEvent type pg' = pg'.
Proof.
  intros pg w pg'.
  destruct (page_run_refines us) as (evs & _ & Hl & _). fold pg in Hl.
  assert (listeners pg' = []) as Hl'.
  { unfold pg', effect_cleanup, removeEventListener. cbn [listeners].
    by rewrite Hl. }
  destruct (call_handleBeforeUnload_effect w) as [Hs1 Hp1].
  split_and!; [done| | |].
  - unfold pg', effect_cleanup, removeEventListener. cbn [world]. by fold w.
  - unfold pg', effect_cleanup, removeEventListener. cbn [world]. fold w.
    by rewrite Hs1.
  - unfold dispatchEvent. rewrite Hl'. rewrite decide_False; [done|].
    apply not_elem_of_nil.
Qed.

(** ** Renders and the unmount *)


Lemma page_step_Inv u pg : Inv (world pg) → Inv (world (page_step u pg)).
Proof.
  intros HI. destruct (page_step_refines u pg) as (evs & -> & _).
  by apply run_Inv_from.
Qed.




(** As long as no render throws, the page under React is the page that
    the handlers alone produce. *)
Lemma stays_mounted_renders us pg :
  stays_mounted us pg = true → App_renders (store (world pg)) = true.
Proof. destruct us; simpl; by intros [? _]%andb_prop. Qed.

Lemma stays_mounted_screen us pg :
  stays_mounted us pg = true →
  screen_run us (mkScreen pg true) = mkScreen (page_run us pg) true.
Proof.
  revert pg. induction us as [|u us IH]; intros pg Hm; [done|].
  simpl in Hm. apply andb_prop in Hm as [_ Hm].
  change (screen_run (u :: us) (mkScreen pg true))
    with (screen_run us (render (page_step u pg))).
  unfold render. rewrite (stays_mounted_renders us) by done. by apply IH.
Qed.


(** ** Closing a card *)

(** X14.  A click on the close button of a card sends the delete request
    for the id of that card; when the request is answered, whatever happened
    in between, the card is gone together with every card of the same id,
    exactly the other cards of that moment stay, and the list is shorter if
    the card was still there. *)
Theorem close_card_removes_card (evs evs' : list Event) (i : nat)
    (s : Session) (response : Response) :
  let w := run evs init in
  let p := length (promises w) in
  let w1 := click_close i w in
  let w2 := run evs' w1 in
  let w3 := step (Settle p (Fulfilled response)) w2 in
  sessions (store w) !! i = Some s →
  is_pending w2 p = true →
  promises w1 = promises w ++ [Pending (Cleanup (js_to_string (id s)))] ∧
  (s ∉ sessions (store w3)) ∧
  (s ∈ sessions (store w2) →
   length (sessions (store w3)) < length (sessions (store w2))) ∧
  (∀ s', s' ∈ sessions (store w3) ↔
         s' ∈ sessions (store w2) ∧ id s' ≠ id s) ∧
  (id s ∉ sessionsRef (store w3)).
Proof.
  intros w p w1 w2 w3 Hi Hpend. pose proof (run_Inv evs) as HI. fold w in HI.
  assert (w1 = mkWorld (store w) (clock w)
            (promises w ++ [Pending (Cleanup (js_to_string (id s)))])
            (tasks w ++ [(calls w, OnFetch p (cleanupSession_settled (id s)))])
            (S (calls w)) (resolved w)) as Hw1.
  { unfold w1, click_close. rewrite Hi. by rewrite call_cleanupSession. }
  assert (Inv w1) as HI1.
  { replace w1 with (step (ClickClose (id s)) w); [by apply step_Inv|].
    unfold w1, click_close. by rewrite Hi. }
  assert (p < length (promises w1)) as Hp1.
  { rewrite Hw1. simpl. rewrite length_app. simpl. unfold p. lia. }
  assert (awaited_by p (calls w) (cleanupSession_settled (id s)) w1) as Ha1.
  { unfold awaited_by. rewrite Hw1. simpl.
    rewrite filter_app, filter_cons_True by done. rewrite filter_nil.
    rewrite filter_none; [done|]. by apply Inv_not_waiting. }
  assert (awaited_by p (calls w) (cleanupSession_settled (id s)) w2) as Ha2
    by by apply run_awaited.
  assert (p < length (promises w2)) as Hp2.
  { destruct (run_grows evs' w1) as (_ & Hlen & _). fold w2 in Hlen. lia. }
  destruct (settle_awaited p (calls w) (id s) (Fulfilled response) w2
              Hp2 Hpend Ha2) as (Hst & _ & _).
  split; [by rewrite Hw1|].
  unfold w3. simpl. rewrite Hst. simpl. split_and!.
  - intros [Hne _]%list_elem_of_filter. done.
  - intros Hs. eapply length_filter_lt; [done|]. intros H. by apply H.
  - intros s'. rewrite list_elem_of_filter. tauto.
  - apply Set_delete_not_elem.
Qed.

(** ** The configuration of a card *)

Lemma lower_ascii_idemp c : lower_ascii (lower_ascii c) = lower_ascii c.
Proof. by destruct c as [[] [] [] [] [] [] [] []]. Qed.

Lemma lower_upper_ascii c : lower_ascii (upper_ascii c) = lower_ascii c.
Proof. by destruct c as [[] [] [] [] [] [] [] []]. Qed.

Lemma toLowerCase_idemp s : toLowerCase (toLowerCase s) = toLowerCase s.
Proof.
  induction s as [|c s IH]; [done|]. simpl. by rewrite lower_ascii_idemp, IH.
Qed.

Lemma fallback_name_lower s :
  toLowerCase (toUpperCase (charAt0 s) +:+ slice1 s) = toLowerCase s.
Proof. destruct s as [|c s]; [done|]. simpl. by rewrite lower_upper_ascii. Qed.

Lemma fallback_name_length s :
  String.length (toUpperCase (charAt0 s) +:+ slice1 s) = String.length s.
Proof. by destruct s. Qed.

(** X15.  [getBrowserConfig] compares kinds without regard to case.  It
    returns one of its own three configs exactly for firefox, tor and
    tor-browser.  For the two kinds spelled like a lower-case member of
    [Object.prototype] (constructor, __proto__) the lookup finds that
    member instead of a config.  For every other kind, and only for those,
    it builds the fallback, whose title is the kind with at most its first
    letter changed to upper case. *)
Theorem getBrowserConfig_cases (browser : string) :
  match getBrowserConfig browser with
  | Own c =>
      (toLowerCase browser = "firefox" ∧ Config.name c = "Firefox") ∨
      ((toLowerCase browser = "tor" ∨ toLowerCase browser = "tor-browser") ∧
       Config.name c = "Tor Browser")
  | Inherited key =>
      key = toLowerCase browser ∧ (key = "constructor" ∨ key = "__proto__")
  | Fallback c =>
      (toLowerCase browser ∉
         ["firefox"; "tor"; "tor-browser"; "constructor"; "__proto__"]) ∧
      Config.name c = toUpperCase (charAt0 browser) +:+ slice1 browser ∧
      toLowerCase (Config.name c) = toLowerCase browser ∧
      String.length (Config.name c) = String.length browser ∧
      Config.icon c = Globe
  end.
Proof.
  unfold getBrowserConfig.
  pose proof (toLowerCase_idemp browser) as Hidem.
  destruct (configs !! toLowerCase browser) as [c|] eqn:E.
  - unfold configs in E. simpl in E.
    rewrite lookup_insert in E. case_decide; [left; by simplify_eq|].
    rewrite lookup_insert in E. case_decide; [right; by simplify_eq; auto|].
    rewrite lookup_insert in E. case_decide; [right; by simplify_eq; auto|].
    by rewrite lookup_empty in E.
  - destruct (decide _) as [Hin|Hout].
    + split; [done|]. unfold Object_prototype_keys in Hin.
      repeat (apply elem_of_cons in Hin as [Hk|Hin];
              [rewrite Hk in Hidem; try discriminate Hidem; auto|]).
      by apply not_elem_of_nil in Hin.
    + simpl. split_and!; [|done| |apply fallback_name_length|done].
      * intros Hk. repeat (apply elem_of_cons in Hk as [Hk|Hk]);
          try (by rewrite Hk in E);
          try (apply Hout; rewrite Hk; unfold Object_prototype_keys;
               set_solver).
        by apply not_elem_of_nil in Hk.
      * apply fallback_name_lower.
Qed.

End PageProofs.

(** ** Counterexamples and witnesses *)

(** C1, counterexample.  On the page that shows session abc123, right after
    [close("abc123")] the delete request is still in flight and the session is
    still in the ordered list; if the request is then rejected the session
    stays in the list and in the set for good. *)
Lemma close_is_not_synchronous :
  session_ids (store one_session) = [VStr "abc123"] ∧
  promises closing !! 1 = Some (Pending (Cleanup "abc123")) ∧
  session_ids (store closing) = [VStr "abc123"] ∧
  registry (store (step (engine := v8)
                     (Settle 1 (Rejected (mkError "Failed to fetch"))) closing)) =
    registry (store one_session).
Proof. by vm_compute. Qed.


(** C4, counterexample.  With sessions a and b registered, the page exit
    sends two delete requests (promises 2 and 3) as call 2.  When the request
    for a is rejected, call 2 returns although the request for b has not
    settled. *)
Lemma closeAll_returns_on_first_rejection :
  let w := run (engine := v8)
    [PageExit; Settle 2 (Rejected (mkError "Failed to fetch"))] two_sessions in
  promises (step (engine := v8) PageExit two_sessions) =
    promises two_sessions ++ [Pending (Cleanup "a"); Pending (Cleanup "b")] ∧
  2 ∈ resolved w ∧
  promises w !! 3 = Some (Pending (Cleanup "b")) ∧
  is_fulfilled w 3 = false ∧ is_rejected w 3 = false.
Proof.
  vm_compute. split_and!; try done. apply list_elem_of_In. simpl. tauto.
Qed.



(** C10, counterexample.  On the empty registry [close("ghost")] is called;
    while its request is in flight a Firefox launch is answered with
    session id ghost, which enters both representations; the delete request
    then fulfils and removes that session from both. *)
Lemma absent_id_inserted_before_settlement :
  let w1 := step (engine := v8) (ClickClose (VStr "ghost")) init in
  let w2 := run (engine := v8)
    [ClickLaunch "firefox"; Settle 1 (ok_json [("session_id", VStr "ghost")]);
     BodyRead 1] w1 in
  let w3 := step (engine := v8) (Settle 0 (ok_json [])) w2 in
  registry (store init) = ([], []) ∧
  promises w1 = [Pending (Cleanup "ghost")] ∧
  session_ids (store w2) = [VStr "ghost"] ∧
  sessionsRef (store w2) = [VStr "ghost"] ∧
  is_pending w2 0 = true ∧
  registry (store w3) = ([], []) ∧
  registry (store w3) ≠ registry (store w2).
Proof. by vm_compute. Qed.

(** An unmount: on [one_session_page] a Tor launch is answered with status
    200 and the body [{}].  The session it adds has no id, the render of its
    card throws, and the cleanup of the effect sends a delete request for
    each id of the set. *)
Example render_throws_and_unmounts :
  let s := screen_run (engine := v8)
    [PressOption 0; Network (Settle 0 (ok_json abc123)); Network (BodyRead 0);
     PressOption 1; Network (Settle 1 (ok_json []))] screen_init in
  let s' := screen_step (engine := v8) (Network (BodyRead 0)) s in
  mounted s = true ∧ mounted s' = false ∧
  listeners (page s') = [] ∧
  drop (length (promises (world (page s)))) (promises (world (page s'))) =
    [Pending (Cleanup "abc123"); Pending (Cleanup "undefined")].
Proof. by vm_compute. Qed.

(** The spec's example of a successful launch. *)
Example launch_success :
  registry (store one_session) =
    ([mkSession (VStr "abc123") "firefox" (VStr "http://host/vnc/abc123")
        (VStr "running") (VNum 5901) 0],
     [VStr "abc123"]) ∧
  error (store one_session) = "" ∧
  launchingBrowser (store one_session) = None.
Proof. by vm_compute. Qed.

(** The spec's example of a failed launch. *)
Example quota_exceeded :
  let st := store (run (engine := v8)
    [ClickLaunch "tor";
     Settle 1 (error_json [("detail", VStr "container quota exceeded")]);
     BodyRead 0] one_session) in
  registry st = registry (store one_session) ∧
  error st = "container quota exceeded" ∧
  launchingBrowser st = None ∧ loading st = false.
Proof. by vm_compute. Qed.


(** Witness for C10: ghost is closed on [one_session], and a Tor launch is
    clicked before the delete request is answered. *)
Lemma close_absent_id_witness :
  (VStr "ghost" ∉ sessionsRef (store one_session)) ∧
  is_pending
    (run (engine := v8) [ClickLaunch "tor"]
       (step (engine := v8) (ClickClose (VStr "ghost")) one_session)) 1 =
  true ∧
  registry (store (step (engine := v8) (Settle 1 (ok_json []))
    (run (engine := v8) [ClickLaunch "tor"]
       (step (engine := v8) (ClickClose (VStr "ghost")) one_session)))) =
  registry (store one_session).
Proof.
  assert (VStr "ghost" ∉ sessionsRef (store one_session)) as Hout.
  { vm_compute. intros Hin. apply list_elem_of_In in Hin. simpl in Hin.
    destruct Hin as [Heq|[]]. discriminate Heq. }
  assert (is_pending
    (run (engine := v8) [ClickLaunch "tor"]
       (step (engine := v8) (ClickClose (VStr "ghost")) one_session)) 1 =
    true) as Hpend by reflexivity.
  split; [exact Hout|]. split; [exact Hpend|].
  pose proof (close_absent_id (engine := v8)
    [ClickLaunch "firefox"; Settle 0 (ok_json abc123); BodyRead 0]
    [ClickLaunch "tor"] (VStr "ghost") (ok_json []) Hout Hpend)
    as (_ & _ & _ & Hsame & Habs & _).
  apply Hsame, Habs. intros i Hi.
  apply list_elem_of_singleton in Hi. discriminate Hi.
Defined.



(** Witness for X9: the session of [one_session] was launched as firefox. *)
Lemma session_kind_was_launched_witness :
  abc123_session ∈ sessions (store one_session) ∧
  ClickLaunch "firefox" ∈
    [ClickLaunch "firefox"; Settle 0 (ok_json abc123); BodyRead 0].
Proof.
  assert (abc123_session ∈ sessions (store one_session)) as Hin.
  { vm_compute. by left. }
  split; [exact Hin|].
  exact (session_kind_was_launched (engine := v8)
           [ClickLaunch "firefox"; Settle 0 (ok_json abc123); BodyRead 0]
           abc123_session Hin).
Defined.

(** Witness for X11: the card of [one_session_page] is a Firefox card. *)
Lemma page_sessions_have_configs_witness :
  abc123_session ∈ sessions (store (world one_session_page)) ∧
  ((browser abc123_session = "firefox" ∧
    getBrowserConfig (browser abc123_session) =
      Own (Config.mk Globe "Firefox" "from-orange-500 to-red-500" "orange")) ∨
   (browser abc123_session = "tor" ∧
    getBrowserConfig (browser abc123_session) =
      Own (Config.mk Eye "Tor Browser" "from-purple-600 to-indigo-600"
             "purple"))).
Proof.
  assert (abc123_session ∈ sessions (store (world one_session_page))) as Hin.
  { vm_compute. by left. }
  split; [exact Hin|].
  exact (page_sessions_have_configs (engine := v8)
           [PressOption 0; Network (Settle 0 (ok_json abc123));
            Network (BodyRead 0)]
           abc123_session Hin).
Defined.

(** Witness for X14: the first card of [one_session] is closed, and a Tor
    launch is clicked before the delete request is answered. *)
Lemma close_card_removes_card_witness :
  sessions (store one_session) !! 0 = Some abc123_session ∧
  is_pending
    (run (engine := v8) [ClickLaunch "tor"] (click_close 0 one_session)) 1 =
  true ∧
  abc123_session ∉
    sessions (store (step (engine := v8) (Settle 1 (ok_json []))
      (run (engine := v8) [ClickLaunch "tor"] (click_close 0 one_session)))).
Proof.
  assert (sessions (store one_session) !! 0 = Some abc123_session) as Hi.
  { by vm_compute. }
  assert (is_pending
    (run (engine := v8) [ClickLaunch "tor"] (click_close 0 one_session)) 1 =
    true) as Hpend by reflexivity.
  split; [exact Hi|]. split; [exact Hpend|].
  exact (proj1 (proj2
    (close_card_removes_card (engine := v8)
       [ClickLaunch "firefox"; Settle 0 (ok_json abc123); BodyRead 0]
       [ClickLaunch "tor"]
       0 abc123_session (mkResponse true (Fulfilled (JObject ∅))) Hi Hpend))).
Defined.

(** Witness for X12: the tab showing [one_session_page] is closed. *)
Lemma tab_close_sends_requests_twice_witness :
  stays_mounted (engine := v8)
    [PressOption 0; Network (Settle 0 (ok_json abc123)); Network (BodyRead 0)]
    page_init = true ∧
  promises (world (page_run (engine := v8)
    [WindowEvent "beforeunload"; WindowEvent "unload"] one_session_page)) =
  promises (world one_session_page) ++
    cleanup_requests [VStr "abc123"] ++ cleanup_requests [VStr "abc123"].
Proof.
  assert (stays_mounted (engine := v8)
            [PressOption 0; Network (Settle 0 (ok_json abc123));
             Network (BodyRead 0)] page_init = true) as Hm.
  { by vm_compute. }
  split; [exact Hm|].
  exact (proj1
    (tab_close_sends_requests_twice (engine := v8)
       [PressOption 0; Network (Settle 0 (ok_json abc123));
        Network (BodyRead 0)] Hm)).
Defined.


